(** * CLEAN wave-packet decomposition: a shallow embedding of [clean/clean.py]

    The embedding follows [extract_CLEAN] line by line.  numpy's [float64]
    scalars are read as real numbers and [complex128] as pairs of reals, so
    every statement below is about the program in exact arithmetic: rounding
    is not modelled.  The numpy and scipy routines the program calls
    ([np.fft.fft], [np.fft.ifft], [np.fft.fftfreq], [scipy.signal.hilbert],
    [np.argmax], [np.angle], [np.exp], array broadcasting) are given by their
    documented definitions, including the exceptions they raise.  Division is
    Python 3 true division, as the odd-length branch of the program needs. *)

From Stdlib Require Import Reals Lra Lia List Arith ZArith Psatz Zify ZifyNat.
From Stdlib Require String DecimalString.
Import ListNotations.
Import String.StringSyntax.
Delimit Scope string_scope with string.

(** Let [lia] reason about integer division and remainder. *)
Ltac Zify.zify_post_hook ::= Z.div_mod_to_equations.

Local Open Scope R_scope.

(** ** Complex scalars ([complex128] in exact arithmetic) *)

Record C : Type := mkC { Re : R; Im : R }.

Declare Scope C_scope.
Delimit Scope C_scope with C.
Bind Scope C_scope with C.

Definition C0 : C := mkC 0 0.
Definition C1 : C := mkC 1 0.
(** The literal [1j]. *)
Definition Ci : C := mkC 0 1.
(** A real scalar promoted to complex, as numpy does in mixed arithmetic. *)
Definition RtoC (x : R) : C := mkC x 0.

Definition Cadd (a b : C) : C := mkC (Re a + Re b) (Im a + Im b).
Definition Copp (a : C) : C := mkC (- Re a) (- Im a).
Definition Csub (a b : C) : C := mkC (Re a - Re b) (Im a - Im b).
Definition Cmul (a b : C) : C :=
  mkC (Re a * Re b - Im a * Im b) (Re a * Im b + Im a * Re b).
(** [z.conj()] *)
Definition Cconj (a : C) : C := mkC (Re a) (- Im a).
(** [abs(z)] *)
Definition Cmod (a : C) : R := sqrt (Re a * Re a + Im a * Im a).
(** [scalar * z] for a real scalar. *)
Definition Cscal (r : R) (a : C) : C := mkC (r * Re a) (r * Im a).

Infix "+" := Cadd : C_scope.
Infix "-" := Csub : C_scope.
Infix "*" := Cmul : C_scope.
Notation "- x" := (Copp x) : C_scope.

(** The unit complex number of argument [t]. *)
Definition cis (t : R) : C := mkC (cos t) (sin t).

(** [np.exp(z)] for complex [z]. *)
Definition Cexp (z : C) : C := Cscal (exp (Re z)) (cis (Im z)).

(** [np.arctan2(y, x)], without signed zeros. *)
Definition arctan2 (y x : R) : R :=
  if Rlt_dec 0 x then atan (y / x)
  else if Rlt_dec x 0 then
         if Rle_dec 0 y then atan (y / x) + PI else atan (y / x) - PI
  else if Rlt_dec 0 y then PI / 2
  else if Rlt_dec y 0 then - (PI / 2)
  else 0.

(** [np.angle(z)] *)
Definition angle (z : C) : R := arctan2 (Im z) (Re z).

(** Finite sums [f 0 + ... + f (n-1)]. *)
Fixpoint Csum (f : nat -> C) (n : nat) : C :=
  match n with
  | O => C0
  | S m => (Csum f m + f m)%C
  end.

(** ** Exceptions and outcomes *)

Inductive exn : Type :=
| ValueError_fft_points   (** fft/ifft of an array with no data points *)
| ValueError_hilbert_N    (** hilbert: "N must be positive." *)
| ValueError_argmax_empty (** argmax of an empty sequence *)
| ZeroDivisionError       (** [1.0 / (n * d)] in fftfreq *)
| ValueError_broadcast.   (** operands could not be broadcast together *)

Inductive outcome (A : Type) : Type :=
| Done (a : A)
| Raised (e : exn)
| OutOfFuel.

Arguments Done {A} a.
Arguments Raised {A} e.
Arguments OutOfFuel {A}.

Definition bind {A B : Type} (m : outcome A) (k : A -> outcome B) : outcome B :=
  match m with
  | Done a => k a
  | Raised e => Raised e
  | OutOfFuel => OutOfFuel
  end.

Notation "x <- m ;; k" := (bind m (fun x => k))
  (at level 61, m at next level, right associativity).

(** ** numpy and scipy routines *)

(** Python slices used by the program. *)
Definition slice_to {A : Type} (n : nat) (a : list A) : list A := firstn n a.
Definition slice_1_m1 {A : Type} (a : list A) : list A := removelast (tl a).
Definition slice_1 {A : Type} (a : list A) : list A := tl a.
Definition reversed {A : Type} (a : list A) : list A := rev a.
Definition drop_last {A : Type} (a : list A) : list A := removelast a.

(** Element-wise binary operation on one-dimensional arrays with numpy's
    broadcasting rule: equal lengths, or one operand of length one. *)
Definition broadcast2 {A B D : Type} (f : A -> B -> D)
    (a : list A) (b : list B) : outcome (list D) :=
  if Nat.eq_dec (length a) (length b) then
    Done (map (fun p => f (fst p) (snd p)) (combine a b))
  else
    match a, b with
    | [x], _ => Done (map (f x) b)
    | _, [y] => Done (map (fun x => f x y) a)
    | _, _ => Raised ValueError_broadcast
    end.

(** [np.fft.fft(a)]: [A_k = sum_m a_m exp(-2 pi i m k / n)]. *)
Definition dft (a : list C) : list C :=
  let n := length a in
  map (fun k =>
         Csum (fun m => (nth m a C0 * cis (- (2 * PI * INR m * INR k / INR n)))%C) n)
      (seq 0 n).

Definition fft (a : list C) : outcome (list C) :=
  match a with
  | [] => Raised ValueError_fft_points
  | _ => Done (dft a)
  end.

(** [np.fft.ifft(A)]: [a_m = (1/n) sum_k A_k exp(2 pi i m k / n)]. *)
Definition idft (a : list C) : list C :=
  let n := length a in
  map (fun m =>
         Cscal (1 / INR n)
           (Csum (fun k => (nth k a C0 * cis (2 * PI * INR m * INR k / INR n))%C) n))
      (seq 0 n).

Definition ifft (a : list C) : outcome (list C) :=
  match a with
  | [] => Raised ValueError_fft_points
  | _ => Done (idft a)
  end.

(** The integer bin numbers of [np.fft.fftfreq(n, d)]:
    [0, 1, ..., (n-1)//2, -(n//2), ..., -1]. *)
Definition fftfreq_bins (n : nat) : list Z :=
  map Z.of_nat (seq 0 ((n - 1) / 2 + 1))
  ++ map (fun i => (Z.of_nat i - Z.of_nat (n / 2))%Z) (seq 0 (n / 2)).

(** [np.fft.fftfreq(n, d)]: [val = 1.0 / (n * d)] and [results * val]. *)
Definition fftfreq (n : nat) (d : R) : outcome (list R) :=
  if Req_dec_T (INR n * d) 0 then Raised ZeroDivisionError
  else Done (map (fun j => IZR j * (1 / (INR n * d))) (fftfreq_bins n)).

(** The weights [h] of [scipy.signal.hilbert]: [h[0] = 1], and for even [N]
    [h[N/2] = 1], [h[1:N/2] = 2]; for odd [N] [h[1:(N+1)/2] = 2]; 0 elsewhere. *)
Definition hilbert_h (N k : nat) : R :=
  if Nat.even N then
    if ((k =? 0)%nat || (k =? N / 2)%nat)%bool then 1
    else if (k <? N / 2)%nat then 2 else 0
  else
    if (k =? 0)%nat then 1
    else if (k <? (N + 1) / 2)%nat then 2 else 0.

(** [scipy.signal.hilbert(x)] for a real one-dimensional [x]:
    [ifft(fft(x) * h)]. *)
Definition analytic (x : list R) : list C :=
  let N := length x in
  let Xf := dft (map RtoC x) in
  idft (map (fun k => Cscal (hilbert_h N k) (nth k Xf C0)) (seq 0 N)).

Definition hilbert (x : list R) : outcome (list C) :=
  match x with
  | [] => Raised ValueError_hilbert_N
  | _ => Done (analytic x)
  end.

(** [np.argmax]: the first index holding the maximum. *)
Fixpoint argmax_from (l : list R) (i best : nat) (bv : R) : nat :=
  match l with
  | [] => best
  | x :: t =>
      if Rlt_dec bv x then argmax_from t (S i) i x
      else argmax_from t (S i) best bv
  end.

Definition argmax (l : list R) : outcome nat :=
  match l with
  | [] => Raised ValueError_argmax_empty
  | x :: t => Done (argmax_from t 1 0 x)
  end.

(** ** The program: [extract_CLEAN] *)

(** The variables the loop reads and writes. *)
Record state : Type := mkState {
  residue : list C;
  amplitude : R;
  amp_max : R;
  amplitudes : list R;
  delays : list R;
  phases : list R;
  components : list (list C)
}.

(** What is computed once, before the loop. *)
Record reference : Type := mkReference {
  original_spectrum : list C;
  omega : list R;
  original_hilbert : list C;
  original_argpeak : nat
}.

Section Loop.

Variable ref : reference.
Variable delta_t : R.
Variable threshold : R.

(** The index bound called [nyquist_index] in the program. *)
Definition nyquist_index : nat :=
  let L := length (original_spectrum ref) in
  if (L mod 2 =? 0)%nat then (L / 2 + 1)%nat else ((L + 1) / 2)%nat.

(** [amplitude*half_spectrum * np.exp(1j*(-2*np.pi*omega[:n]*delay + phase))] *)
Definition component_spectrum_of (amp delay phase : R) : outcome (list C) :=
  let half_spectrum := slice_to nyquist_index (original_spectrum ref) in
  let arg := map (fun w => -2 * PI * w * delay + phase)
                 (slice_to nyquist_index (omega ref)) in
  let rot := map (fun t => Cexp (Ci * RtoC t)%C) arg in
  broadcast2 Cmul (map (Cscal amp) half_spectrum) rot.

(** The two [np.concatenate] branches. *)
Definition reconstruct (component_spectrum : list C) : list C :=
  if (length (original_spectrum ref) mod 2 =? 0)%nat then
    component_spectrum ++ reversed (slice_1_m1 (map Cconj component_spectrum))
  else
    component_spectrum ++ reversed (slice_1 (map Cconj component_spectrum)).

(** One pass through the body of the [while] loop. *)
Definition loop_body (st : state) : outcome state :=
  r_c <- ifft (residue st) ;;
  let r_t := map Re r_c in
  r_hilbert <- hilbert r_t ;;
  r_argpeak <- argmax (map Cmod r_hilbert) ;;
  let amp := Cmod (nth r_argpeak r_hilbert C0) in
  let delay :=
    IZR (Z.of_nat r_argpeak - Z.of_nat (original_argpeak ref)) * delta_t in
  let phase :=
    angle (nth r_argpeak r_hilbert C0)
    - nth (original_argpeak ref) (map angle (original_hilbert ref)) 0
    + 2 * PI in
  let amplitudes' := amplitudes st ++ [amp] in
  let delays' := delays st ++ [delay] in
  let phases' := phases st ++ [phase] in
  component_spectrum <- component_spectrum_of amp delay phase ;;
  let reconstructed := reconstruct component_spectrum in
  residue' <- broadcast2 Csub (residue st) reconstructed ;;
  comp <- ifft reconstructed ;;
  let components' := components st ++ [comp] in
  let amp_max' :=
    if (length amplitudes' =? 1)%nat then amp else amp_max st in
  Done (mkState residue' amp amp_max' amplitudes' delays' phases' components').

(** [while amplitude > threshold*amp_max: ...], with the number of passes
    made so far carried along. *)
Fixpoint loop (fuel : nat) (passes : nat) (st : state) : outcome (nat * state) :=
  if Rgt_dec (amplitude st) (threshold * amp_max st) then
    match fuel with
    | O => OutOfFuel
    | S fuel' => st' <- loop_body st ;; loop fuel' (S passes) st'
    end
  else Done (passes, st).

End Loop.

(** The statements before the loop, in program order. *)
Definition prepare (measured_signal original_signal : list R) (delta_t : R)
  : outcome (reference * state) :=
  original_spectrum <- fft (map RtoC original_signal) ;;
  measured_spectrum <- fft (map RtoC measured_signal) ;;
  omega <- fftfreq (length original_signal) delta_t ;;
  original_hilbert <- hilbert original_signal ;;
  original_argpeak <- argmax (map Cmod original_hilbert) ;;
  Done (mkReference original_spectrum omega original_hilbert original_argpeak,
        mkState measured_spectrum 1 2 [] [] [] []).

(** The whole function up to the [return], with the number of loop passes. *)
Definition extract_CLEAN_run (fuel : nat)
    (measured_signal original_signal : list R) (delta_t threshold : R)
  : outcome (nat * state) :=
  rs <- prepare measured_signal original_signal delta_t ;;
  loop (fst rs) delta_t threshold fuel 0 (snd rs).

(** The four returned arrays. *)
Record result : Type := mkResult {
  out_amplitudes : list R;
  out_delays : list R;
  out_phases : list R;
  out_components : list (list C)
}.

Definition returned (st : state) : result :=
  mkResult (drop_last (amplitudes st)) (drop_last (delays st))
           (drop_last (phases st)) (drop_last (components st)).

Definition extract_CLEAN (fuel : nat)
    (measured_signal original_signal : list R) (delta_t threshold : R)
  : outcome result :=
  ks <- extract_CLEAN_run fuel measured_signal original_signal delta_t threshold ;;
  Done (returned (snd ks)).

(** ** Definitions that follow the specification's wording *)

(** Real finite sums, used to state the transform identities. *)
Fixpoint Rsum (f : nat -> R) (n : nat) : R :=
  match n with
  | O => 0
  | S m => Rsum f m + f m
  end.

(** The half-index boundary of the reconstruction operator: [L/2 + 1] for
    even [L], the ceiling of [L/2] for odd [L]. *)
Definition spec_boundary (L : nat) : nat :=
  if Nat.even L then (L / 2 + 1)%nat else (L / 2 + L mod 2)%nat.

(** [half[k] = a * refSpectrum[k] * exp(i * (-2 pi freq[k] d + p))] for the
    bins [0, boundary). *)
Definition spec_half (X : list C) (freq : list R) (a d p : R) : list C :=
  map (fun k =>
         (Cscal a (nth k X C0) * cis (- (2 * PI * nth k freq 0 * d) + p))%C)
      (seq 0 (spec_boundary (length X))).

(** The mirrored part: [half[1:-1]] (even length) or [half[1:]] (odd
    length), conjugated and reversed. *)
Definition spec_mirror (L : nat) (half : list C) : list C :=
  if Nat.even L then rev (map Cconj (removelast (tl half)))
  else rev (map Cconj (tl half)).

(** A value is the maximum of a list of reals. *)
Definition is_max (a : R) (l : list R) : Prop :=
  In a l /\ Forall (fun b => b <= a) l.

(** The weight the Hilbert construction gives a bin, from the sign of the
    bin's frequency number [j] (an entry of [fftfreq_bins N]): DC and
    Nyquist unscaled, strictly positive doubled, negative zeroed. *)
Definition spec_weight (N : nat) (j : Z) : R :=
  if (j =? 0)%Z then 1
  else if (2 * Z.abs j =? Z.of_nat N)%Z then 1
  else if (0 <? j)%Z then 2
  else 0.

(** ** Auxiliary notions used in the statements and proofs *)

(** The analytic signal the pass works on, from the residue. *)
Definition pass_hilbert (res : list C) : list C :=
  analytic (map Re (idft res)).

(** After [k] passes each accumulator holds [k] entries, and from the first
    pass on the last amplitude appended is the current [amplitude]. *)
Definition accumulated (k : nat) (st : state) : Prop :=
  length (amplitudes st) = k /\ length (delays st) = k /\
  length (phases st) = k /\ length (components st) = k /\
  ((1 <= k)%nat -> exists la, amplitudes st = la ++ [amplitude st]).

(** Powers of [i], the quarter turns. *)
Fixpoint quarter (j : nat) : C :=
  match j with
  | O => C1
  | S j' => (Ci * quarter j')%C
  end.

(** A waveform all of whose samples are real. *)
Definition real_valued (c : list C) : Prop := Forall (fun z => Im z = 0) c.

(** The reference spectrum has no DC content and, for an even length, no
    Nyquist content. *)
Definition no_dc_nyquist (X : list C) : Prop :=
  nth 0 X C0 = C0 /\
  (Nat.even (length X) = true -> nth (length X / 2) X C0 = C0).

(** ** The plotting routine: [plot_components] *)

(** The calls made to [matplotlib.pyplot], in order, with their arguments. *)
Inductive plt_call : Type :=
| Figure
| Plot (x y : list R) (c : option String.string) (lw : option R)
       (label : String.string)
| Xlabel (s : String.string)
| Ylabel (s : String.string)
| Legend.

(** [plt.plot(x, y)] raises when [x] and [y] differ in length. *)
Inductive plot_exn : Type :=
| ValueError_plot_shape.

(** A plotting step on the log of calls made so far: the new log, and the
    exception if the step raised. *)
Definition plotting : Type := list plt_call -> list plt_call * option plot_exn.

Definition plt_plot (x y : list R) (c : option String.string) (lw : option R)
    (label : String.string) : plotting :=
  fun log =>
    if Nat.eq_dec (length x) (length y) then (log ++ [Plot x y c lw label], None)
    else (log, Some ValueError_plot_shape).

Definition plt_do (call : plt_call) : plotting :=
  fun log => (log ++ [call], None).

Definition plt_seq (a b : plotting) : plotting :=
  fun log =>
    match a log with
    | (log', None) => b log'
    | (log', Some e) => (log', Some e)
    end.

(** ['component {}'.format(i)] *)
Definition component_label (i : nat) : String.string :=
  String.append "component "%string
    (DecimalString.NilEmpty.string_of_uint (Nat.to_uint i)).

(** [time*1e6] *)
Definition microseconds (time : list R) : list R :=
  map (fun t => t * 1000000) time.

(** [for i, comp in enumerate(components): plt.plot(time*1e6, comp.real, ...)] *)
Fixpoint plot_each (time : list R) (i : nat) (components : list (list C))
  : plotting :=
  match components with
  | [] => fun log => (log, None)
  | comp :: rest =>
      plt_seq (plt_plot (microseconds time) (map Re comp) None None
                 (component_label i))
              (plot_each time (S i) rest)
  end.

Definition plot_components (time measured_signal : list R)
    (components : list (list C)) : list plt_call * option plot_exn :=
  plt_seq (plt_do Figure)
    (plt_seq (plt_plot (microseconds time) measured_signal
                (Some "lightgray"%string) (Some 4) "measured"%string)
       (plt_seq (plot_each time 0 components)
          (plt_seq (plt_do (Xlabel "time in us"%string))
             (plt_seq (plt_do (Ylabel "normalised amplitude"%string))
                (plt_do Legend)))))
    [].

(** The sum over a list of waveforms of the real parts of their samples
    number [n]. *)
Definition real_sum_at (n : nat) (cs : list (list C)) : R :=
  fold_right (fun c acc => Re (nth n c C0) + acc) 0 cs.

(** The curves a log of calls draws. *)
Definition is_plot (call : plt_call) : bool :=
  match call with
  | Plot _ _ _ _ _ => true
  | _ => false
  end.

(** The residue keeps a shape that broadcasts against the reconstructed
    spectrum. *)
Definition residue_fits (ref : reference) (st : state) : Prop :=
  residue st <> [] /\
  (length (residue st) = length (original_spectrum ref) \/
   length (residue st) = 1%nat \/
   length (original_spectrum ref) = 1%nat).

(** From the first pass on, [amp_max] is the first amplitude found, the
    current [amplitude] is the last one appended, and every earlier one
    passed the loop test against [amp_max]. *)
Definition thresholded (t : R) (st : state) : Prop :=
  Forall (fun a => 0 <= a) (amplitudes st) /\
  (amplitudes st = [] \/
   exists a0 rest la,
     amplitudes st = a0 :: rest /\ amp_max st = a0 /\
     amplitudes st = la ++ [amplitude st] /\
     Forall (fun a => a > t * a0) la).

(** The curve drawn for component number [i]. *)
Definition component_curve (time : list R) (i : nat) (comp : list C)
  : plt_call :=
  Plot (microseconds time) (map Re comp) None None (component_label i).

(** * Properties *)

(** ** Complex arithmetic *)

Lemma C_eq (a b : C) : Re a = Re b -> Im a = Im b -> a = b.
Proof. destruct a, b; simpl; intros -> ->; reflexivity. Qed.

Ltac Ceq := apply C_eq; simpl; try ring.

Lemma Cmul_1_r (a : C) : (a * C1)%C = a.
Proof. Ceq. Qed.

Lemma Cscal_1 (a : C) : Cscal 1 a = a.
Proof. Ceq. Qed.

Lemma cis_0 : cis 0 = C1.
Proof. unfold cis, C1. rewrite cos_0, sin_0. reflexivity. Qed.

Lemma cis_eq_0 (t : R) : t = 0 -> cis t = C1.
Proof. intros ->. apply cis_0. Qed.

Lemma cis_2PI : cis (2 * PI) = C1.
Proof. unfold cis, C1. rewrite cos_2PI, sin_2PI. reflexivity. Qed.

Lemma cis_add (a b : R) : cis (a + b) = (cis a * cis b)%C.
Proof. unfold cis, Cmul; simpl. rewrite cos_plus, sin_plus. f_equal; ring. Qed.

(** [np.exp(1j * t)] is the unit complex number of argument [t]. *)
Lemma Cexp_i (t : R) : Cexp (Ci * RtoC t) = cis t.
Proof.
  unfold Cexp, Cmul, Ci, RtoC; simpl.
  replace (0 * t - 1 * 0) with 0 by ring.
  replace (0 * 0 + 1 * t) with t by ring.
  rewrite exp_0. apply Cscal_1.
Qed.

Lemma Cmod_RtoC (x : R) : 0 <= x -> Cmod (RtoC x) = x.
Proof.
  intros Hx. unfold Cmod, RtoC; simpl.
  replace (x * x + 0 * 0) with (x * x) by ring. apply sqrt_square, Hx.
Qed.

Lemma Cmod_C0 : Cmod C0 = 0.
Proof. apply Cmod_RtoC. lra. Qed.

Lemma angle_pos_real (x : R) : 0 < x -> angle (RtoC x) = 0.
Proof.
  intros Hx. unfold angle, arctan2, RtoC; simpl.
  destruct (Rlt_dec 0 x) as [_|n]; [|contradiction].
  replace (0 / x) with 0 by (field; lra). apply atan_0.
Qed.

Lemma angle_C0 : angle C0 = 0.
Proof.
  unfold angle, arctan2, C0; simpl.
  destruct (Rlt_dec 0 0) as [H|_]; [lra|]. reflexivity.
Qed.

(** ** Outcomes *)

Lemma bind_Done {A B : Type} (m : outcome A) (k : A -> outcome B) (b : B) :
  bind m k = Done b -> exists a, m = Done a /\ k a = Done b.
Proof. destruct m; simpl; intros H; try discriminate. eauto. Qed.

(** ** Array lengths *)

Lemma length_dft (a : list C) : length (dft a) = length a.
Proof. unfold dft. rewrite length_map, length_seq. reflexivity. Qed.

Lemma length_idft (a : list C) : length (idft a) = length a.
Proof. unfold idft. rewrite length_map, length_seq. reflexivity. Qed.

Lemma length_analytic (x : list R) : length (analytic x) = length x.
Proof.
  unfold analytic. rewrite length_idft, length_map, length_seq. reflexivity.
Qed.

Lemma fft_Done (a : list C) : a <> [] -> fft a = Done (dft a).
Proof. destruct a; [congruence | reflexivity]. Qed.

Lemma ifft_Done (a : list C) : a <> [] -> ifft a = Done (idft a).
Proof. destruct a; [congruence | reflexivity]. Qed.

Lemma hilbert_Done (x : list R) : x <> [] -> hilbert x = Done (analytic x).
Proof. destruct x; [congruence | reflexivity]. Qed.

Lemma length_nonnil {A : Type} (l : list A) : (0 < length l)%nat <-> l <> [].
Proof. destruct l; simpl; split; intros; try congruence; try lia. Qed.

Lemma argmax_Done (l : list R) :
  l <> [] -> exists i, argmax l = Done i.
Proof. destruct l; [congruence | simpl; eauto]. Qed.

Lemma fftfreq_Done (n : nat) (d : R) :
  (0 < n)%nat -> d <> 0 ->
  fftfreq n d = Done (map (fun j => IZR j * (1 / (INR n * d))) (fftfreq_bins n)).
Proof.
  intros Hn Hd. unfold fftfreq.
  destruct (Req_dec_T (INR n * d) 0) as [E|_]; [|reflexivity].
  apply Rmult_integral in E. destruct E as [E|E]; [|contradiction].
  apply lt_0_INR in Hn. lra.
Qed.

(** The statements before the loop succeed on non-empty signals and a
    non-zero sample interval, and leave the sentinels 1 and 2 in place. *)
Lemma prepare_Done (m o : list R) (dt : R) :
  m <> [] -> o <> [] -> dt <> 0 ->
  exists i,
    argmax (map Cmod (analytic o)) = Done i /\
    prepare m o dt =
    Done (mkReference (dft (map RtoC o))
            (map (fun j => IZR j * (1 / (INR (length o) * dt)))
                 (fftfreq_bins (length o)))
            (analytic o) i,
          mkState (dft (map RtoC m)) 1 2 [] [] [] []).
Proof.
  intros Hm Ho Hdt.
  destruct (argmax_Done (map Cmod (analytic o))) as [i Hi].
  { rewrite <- length_nonnil, length_map, length_analytic, length_nonnil. exact Ho. }
  exists i. split; [exact Hi|].
  unfold prepare.
  rewrite (fft_Done (map RtoC o)), (fft_Done (map RtoC m)); simpl.
  - rewrite fftfreq_Done by (try apply length_nonnil; assumption); simpl.
    rewrite hilbert_Done by assumption; simpl.
    rewrite Hi; simpl. reflexivity.
  - destruct m; simpl; congruence.
  - destruct o; simpl; congruence.
Qed.

(** ** The loop's entry test on the sentinels *)

(** With [amplitude = 1] and [amp_max = 2] the entry test is
    [1 > threshold * 2]: it fails exactly from [threshold = 1/2] on. *)
Lemma loop_sentinels_skip (ref : reference) (dt t : R) (fuel k : nat)
    (res : list C) (la ld lp : list R) (lc : list (list C)) :
  1 / 2 <= t ->
  loop ref dt t fuel k (mkState res 1 2 la ld lp lc)
  = Done (k, mkState res 1 2 la ld lp lc).
Proof.
  intros Ht. destruct fuel; simpl;
    (destruct (Rgt_dec 1 (t * 2)) as [H|_]; [lra | reflexivity]).
Qed.

Lemma loop_sentinels_enter (ref : reference) (dt t : R) (fuel k : nat)
    (res : list C) (la ld lp : list R) (lc : list (list C)) :
  t < 1 / 2 ->
  loop ref dt t (S fuel) k (mkState res 1 2 la ld lp lc)
  = (st' <- loop_body ref dt (mkState res 1 2 la ld lp lc) ;;
     loop ref dt t fuel (S k) st').
Proof.
  intros Ht. simpl.
  destruct (Rgt_dec 1 (t * 2)) as [_|H]; [reflexivity | lra].
Qed.

Lemma run_skips (fuel : nat) (m o : list R) (dt t : R) :
  m <> [] -> o <> [] -> dt <> 0 -> 1 / 2 <= t ->
  extract_CLEAN_run fuel m o dt t
  = Done (0%nat, mkState (dft (map RtoC m)) 1 2 [] [] [] []).
Proof.
  intros Hm Ho Hdt Ht.
  destruct (prepare_Done m o dt Hm Ho Hdt) as [i [_ Hp]].
  unfold extract_CLEAN_run. rewrite Hp; simpl fst; simpl snd; simpl bind.
  apply loop_sentinels_skip, Ht.
Qed.

(** C1, evaluated at a failing input: with [threshold = 0.5] on the
    one-sample signals [[1.0]] and [[1.0]] the loop makes no pass at all and
    the function returns four empty arrays, although the sentinels are meant
    to force the first pass. *)
Theorem C1_first_pass_skipped_at_half :
  (exists st, extract_CLEAN_run 10 [1] [1] 1 (1 / 2) = Done (0%nat, st)) /\
  extract_CLEAN 10 [1] [1] 1 (1 / 2) = Done (mkResult [] [] [] []).
Proof.
  assert (H : extract_CLEAN_run 10 [1] [1] 1 (1 / 2)
              = Done (0%nat, mkState (dft (map RtoC [1])) 1 2 [] [] [] [])).
  { apply run_skips; try discriminate; lra. }
  split; [eexists; exact H|].
  unfold extract_CLEAN. rewrite H. reflexivity.
Qed.

(** C2, as stated, fails where the statements before the loop raise: an
    empty signal makes [np.fft.fft] raise, and a zero sample interval makes
    [np.fft.fftfreq] divide by zero. *)
Lemma C2_counterexample :
  extract_CLEAN 10 [] [] 1 (1 / 2) = Raised ValueError_fft_points /\
  extract_CLEAN 10 [1] [] 1 (1 / 2) = Raised ValueError_fft_points /\
  extract_CLEAN 10 [1] [1] 0 (1 / 2) = Raised ZeroDivisionError.
Proof.
  split; [reflexivity|]. split; [reflexivity|].
  unfold extract_CLEAN, extract_CLEAN_run, prepare; simpl.
  unfold fftfreq. destruct (Req_dec_T (INR 1 * 0) 0) as [_|H]; [reflexivity|].
  exfalso; apply H; ring.
Qed.

(** C2 (amended): for non-empty signals, a non-zero sample interval and
    [threshold >= 0.5], the loop makes zero passes and the function returns
    four empty arrays, whatever the signals are. *)
Theorem C2_zero_passes_from_half (fuel : nat) (m o : list R) (dt t : R) :
  m <> [] -> o <> [] -> dt <> 0 -> 1 / 2 <= t ->
  (exists st, extract_CLEAN_run fuel m o dt t = Done (0%nat, st)) /\
  extract_CLEAN fuel m o dt t = Done (mkResult [] [] [] []).
Proof.
  intros Hm Ho Hdt Ht.
  pose proof (run_skips fuel m o dt t Hm Ho Hdt Ht) as H.
  split; [eexists; exact H|].
  unfold extract_CLEAN. rewrite H. reflexivity.
Qed.

Lemma C2_zero_passes_from_half_witness :
  (exists st, extract_CLEAN_run 0 [3; -1] [1; 2; 5] 1 (3 / 4) = Done (0%nat, st)) /\
  extract_CLEAN 0 [3; -1] [1; 2; 5] 1 (3 / 4) = Done (mkResult [] [] [] []).
Proof.
  apply (C2_zero_passes_from_half 0 [3; -1] [1; 2; 5] 1 (3 / 4));
    try discriminate; lra.
Defined.

(** C5: for [threshold >= 1] and valid input (non-empty signals, positive
    sample interval) all four returned arrays are empty. *)
Theorem C5_empty_from_one (fuel : nat) (m o : list R) (dt t : R) :
  m <> [] -> o <> [] -> 0 < dt -> 1 <= t ->
  extract_CLEAN fuel m o dt t = Done (mkResult [] [] [] []).
Proof.
  intros Hm Ho Hdt Ht.
  unfold extract_CLEAN. rewrite run_skips; try assumption; try lra.
  reflexivity.
Qed.

Lemma C5_empty_from_one_witness :
  extract_CLEAN 5 [1; 0; 2] [1; 0; 2] (1 / 100) 1 = Done (mkResult [] [] [] []).
Proof.
  apply (C5_empty_from_one 5 [1; 0; 2] [1; 0; 2] (1 / 100) 1);
    try discriminate; lra.
Defined.

(** ** The reconstruction operator *)

Lemma length_removelast {A : Type} (l : list A) :
  length (removelast l) = (length l - 1)%nat.
Proof. rewrite removelast_firstn_len, length_firstn. lia. Qed.

Lemma length_fftfreq_bins (n : nat) :
  (1 <= n)%nat -> length (fftfreq_bins n) = n.
Proof.
  intros Hn. unfold fftfreq_bins.
  rewrite length_app, !length_map, !length_seq. lia.
Qed.

Lemma parity_test (L : nat) : (L mod 2 =? 0)%nat = Nat.even L.
Proof.
  destruct (Nat.eqb_spec (L mod 2) 0) as [H|H]; destruct (Nat.even L) eqn:E;
    try reflexivity; exfalso.
  - apply (f_equal negb) in E. rewrite Nat.negb_even in E.
    apply Nat.odd_spec in E. destruct E as [q E]. lia.
  - apply Nat.even_spec in E. destruct E as [q E]. lia.
Qed.

Lemma nyquist_index_boundary (ref : reference) :
  nyquist_index ref = spec_boundary (length (original_spectrum ref)).
Proof.
  unfold nyquist_index, spec_boundary. cbv zeta. rewrite parity_test.
  destruct (Nat.even (length (original_spectrum ref))); lia.
Qed.

Lemma spec_boundary_le (L : nat) : (1 <= L)%nat -> (spec_boundary L <= L)%nat.
Proof.
  intros HL. unfold spec_boundary. destruct (Nat.even L) eqn:E; [|lia].
  apply Nat.even_spec in E. destruct E as [q E]. lia.
Qed.

Lemma spec_boundary_pos (L : nat) : (1 <= L)%nat -> (1 <= spec_boundary L)%nat.
Proof. intros HL. unfold spec_boundary. destruct (Nat.even L); lia. Qed.

(** Pairing the first [n] entries of two arrays entry by entry is indexing
    both by [0, ..., n-1]. *)
Lemma map_combine_firstn {A B D : Type} (f : A -> B -> D) (da : A) (db : B)
    (n : nat) (a : list A) (b : list B) :
  (n <= length a)%nat -> (n <= length b)%nat ->
  map (fun p => f (fst p) (snd p)) (combine (firstn n a) (firstn n b))
  = map (fun k => f (nth k a da) (nth k b db)) (seq 0 n).
Proof.
  revert a b. induction n as [|n IH]; intros a b Ha Hb; [reflexivity|].
  destruct a as [|x a]; [simpl in Ha; lia|].
  destruct b as [|y b]; [simpl in Hb; lia|].
  simpl in Ha, Hb. cbn [firstn combine map seq fst snd nth]. f_equal.
  rewrite <- seq_shift, map_map. apply IH; lia.
Qed.

Lemma firstn_map_comm {A B : Type} (f : A -> B) (n : nat) (l : list A) :
  map f (firstn n l) = firstn n (map f l).
Proof. symmetry. apply firstn_map. Qed.

Lemma component_spectrum_of_spec (ref : reference) (amp delay phase : R) :
  (1 <= length (original_spectrum ref))%nat ->
  length (omega ref) = length (original_spectrum ref) ->
  component_spectrum_of ref amp delay phase
  = Done (spec_half (original_spectrum ref) (omega ref) amp delay phase).
Proof.
  intros HL Hw. unfold component_spectrum_of, spec_half, slice_to, broadcast2.
  cbv zeta. rewrite nyquist_index_boundary.
  set (X := original_spectrum ref) in *. set (n := spec_boundary (length X)).
  assert (Hn : (n <= length X)%nat) by (apply spec_boundary_le, HL).
  rewrite !length_map, !firstn_length_le by lia.
  destruct (Nat.eq_dec n n) as [_|H]; [|congruence]. f_equal.
  rewrite !firstn_map_comm.
  rewrite (map_combine_firstn Cmul (Cscal amp C0) (Cexp (Ci * RtoC (-2 * PI * 0 * delay + phase))))
    by (rewrite ?length_map; lia).
  apply map_ext_in. intros k Hk.
  rewrite (map_nth (Cscal amp)).
  rewrite (map_nth (fun t => Cexp (Ci * RtoC t))).
  rewrite (map_nth (fun w => -2 * PI * w * delay + phase)).
  rewrite Cexp_i. do 2 f_equal. ring.
Qed.

Lemma map_tl {A B : Type} (f : A -> B) (l : list A) :
  map f (tl l) = tl (map f l).
Proof. destruct l; reflexivity. Qed.

Lemma reconstruct_spec (ref : reference) (half : list C) :
  reconstruct ref half
  = half ++ spec_mirror (length (original_spectrum ref)) half.
Proof.
  unfold reconstruct, spec_mirror, reversed, slice_1_m1, slice_1.
  rewrite parity_test.
  destruct (Nat.even (length (original_spectrum ref))); f_equal; f_equal.
  - rewrite <- map_tl. generalize (tl half) as l. intros l.
    rewrite !removelast_firstn_len, length_map. apply firstn_map.
  - symmetry. apply map_tl.
Qed.

Lemma length_spec_half (X : list C) (freq : list R) (a d p : R) :
  length (spec_half X freq a d p) = spec_boundary (length X).
Proof. unfold spec_half. rewrite length_map, length_seq. reflexivity. Qed.

Lemma length_reconstruct (ref : reference) (half : list C) :
  (1 <= length (original_spectrum ref))%nat ->
  length half = spec_boundary (length (original_spectrum ref)) ->
  length (reconstruct ref half) = length (original_spectrum ref).
Proof.
  intros HL Hh. rewrite reconstruct_spec. unfold spec_mirror.
  rewrite length_app. revert Hh. unfold spec_boundary.
  destruct (Nat.even (length (original_spectrum ref))) eqn:E; intros Hh.
  - rewrite length_rev, length_map, length_removelast, length_tl.
    apply Nat.even_spec in E. destruct E as [q E]. lia.
  - rewrite length_rev, length_map, length_tl.
    apply (f_equal negb) in E. rewrite Nat.negb_even in E.
    apply Nat.odd_spec in E. destruct E as [q E]. lia.
Qed.

(** ** What one pass of the loop does *)

Lemma ifft_Done_inv (a b : list C) :
  ifft a = Done b -> a <> [] /\ b = idft a.
Proof. destruct a; simpl; intros H; inversion H; split; congruence. Qed.

Lemma hilbert_Done_inv (x : list R) (b : list C) :
  hilbert x = Done b -> x <> [] /\ b = analytic x.
Proof. destruct x; simpl; intros H; inversion H; split; congruence. Qed.

Lemma loop_body_Done_inv (ref : reference) (dt : R) (st st' : state) :
  loop_body ref dt st = Done st' ->
  exists (i : nat) (cs res' : list C),
    let rh := pass_hilbert (residue st) in
    let amp := Cmod (nth i rh C0) in
    let delay := IZR (Z.of_nat i - Z.of_nat (original_argpeak ref)) * dt in
    let phase :=
      angle (nth i rh C0)
      - angle (nth (original_argpeak ref) (original_hilbert ref) C0) + 2 * PI in
    residue st <> [] /\
    argmax (map Cmod rh) = Done i /\
    component_spectrum_of ref amp delay phase = Done cs /\
    broadcast2 Csub (residue st) (reconstruct ref cs) = Done res' /\
    reconstruct ref cs <> [] /\
    st' = mkState res' amp
            (if (length (amplitudes st ++ [amp]) =? 1)%nat then amp
             else amp_max st)
            (amplitudes st ++ [amp]) (delays st ++ [delay])
            (phases st ++ [phase])
            (components st ++ [idft (reconstruct ref cs)]).
Proof.
  unfold loop_body. intros H.
  apply bind_Done in H. destruct H as [r_c [H1 H]].
  apply ifft_Done_inv in H1. destruct H1 as [Hres ->].
  apply bind_Done in H. destruct H as [rh [H2 H]].
  apply hilbert_Done_inv in H2. destruct H2 as [_ ->].
  apply bind_Done in H. destruct H as [i [H3 H]].
  apply bind_Done in H. destruct H as [cs [H4 H]].
  apply bind_Done in H. destruct H as [res' [H5 H]].
  apply bind_Done in H. destruct H as [comp [H6 H]].
  apply ifft_Done_inv in H6. destruct H6 as [Hrec ->].
  exists i, cs, res'. cbv zeta.
  rewrite <- angle_C0 in H4, H at 1. rewrite map_nth in H4, H.
  unfold pass_hilbert.
  repeat split; try assumption. inversion H. reflexivity.
Qed.

Lemma nth_map_angle (i : nat) (l : list C) :
  nth i (map angle l) 0 = angle (nth i l C0).
Proof. rewrite <- angle_C0 at 1. apply map_nth. Qed.

Lemma pass_hilbert_length (res : list C) :
  length (pass_hilbert res) = length res.
Proof.
  unfold pass_hilbert. rewrite length_analytic, length_map, length_idft.
  reflexivity.
Qed.

(** A pass succeeds as soon as the residue is non-empty, the reference
    arrays have a common positive length and the subtraction broadcasts. *)
Lemma loop_body_eval (ref : reference) (dt : R) (st : state) (i : nat)
    (res' : list C) :
  let rh := pass_hilbert (residue st) in
  let amp := Cmod (nth i rh C0) in
  let delay := IZR (Z.of_nat i - Z.of_nat (original_argpeak ref)) * dt in
  let phase :=
    angle (nth i rh C0)
    - angle (nth (original_argpeak ref) (original_hilbert ref) C0) + 2 * PI in
  let rec := reconstruct ref
               (spec_half (original_spectrum ref) (omega ref) amp delay phase) in
  residue st <> [] ->
  (1 <= length (original_spectrum ref))%nat ->
  length (omega ref) = length (original_spectrum ref) ->
  argmax (map Cmod rh) = Done i ->
  broadcast2 Csub (residue st) rec = Done res' ->
  loop_body ref dt st
  = Done (mkState res' amp
            (if (length (amplitudes st ++ [amp]) =? 1)%nat then amp
             else amp_max st)
            (amplitudes st ++ [amp]) (delays st ++ [delay])
            (phases st ++ [phase]) (components st ++ [idft rec])).
Proof.
  intros rh amp delay phase rec Hres HL Hw Hi Hb.
  unfold loop_body.
  rewrite ifft_Done by assumption. cbn [bind].
  rewrite hilbert_Done.
  2:{ rewrite <- length_nonnil, length_map, length_idft, length_nonnil.
      assumption. }
  cbn [bind]. fold (pass_hilbert (residue st)). fold rh.
  rewrite Hi. cbn [bind]. rewrite nth_map_angle.
  fold amp delay phase.
  rewrite component_spectrum_of_spec by assumption. cbn [bind].
  fold rec. rewrite Hb. cbn [bind].
  rewrite ifft_Done.
  2:{ rewrite <- length_nonnil. unfold rec.
      rewrite length_reconstruct; [lia | assumption | apply length_spec_half]. }
  reflexivity.
Qed.

(** *** Signals of one sample *)

Lemma dft_1 (z : C) : dft [z] = [z].
Proof.
  unfold dft; simpl. f_equal.
  rewrite cis_eq_0 by (field; lra). Ceq.
Qed.

Lemma idft_1 (z : C) : idft [z] = [z].
Proof.
  unfold idft; simpl. f_equal.
  rewrite cis_eq_0 by (field; lra). Ceq; field.
Qed.

Lemma analytic_1 (x : R) : analytic [x] = [RtoC x].
Proof.
  unfold analytic. cbn [length map]. rewrite dft_1. cbn [seq map nth].
  rewrite idft_1. f_equal. unfold hilbert_h; simpl. apply Cscal_1.
Qed.

Lemma pass_hilbert_1 (z : C) : pass_hilbert [z] = [RtoC (Re z)].
Proof. unfold pass_hilbert. rewrite idft_1; simpl. apply analytic_1. Qed.

Lemma loop_step (ref : reference) (dt t : R) (fuel k : nat) (st : state) :
  amplitude st > t * amp_max st ->
  loop ref dt t (S fuel) k st
  = (st' <- loop_body ref dt st ;; loop ref dt t fuel (S k) st').
Proof.
  intros H. simpl.
  destruct (Rgt_dec (amplitude st) (t * amp_max st)); [reflexivity | contradiction].
Qed.

Lemma loop_stop (ref : reference) (dt t : R) (fuel k : nat) (st : state) :
  ~ amplitude st > t * amp_max st ->
  loop ref dt t fuel k st = Done (k, st).
Proof.
  intros H. destruct fuel; simpl;
    (destruct (Rgt_dec (amplitude st) (t * amp_max st)); [contradiction | reflexivity]).
Qed.

(** One pass on one-sample arrays, with the values it computes named. *)
Lemma loop_body_1 (X0 h0 z : C) (f0 dt : R) (a am : R) (la ld lp : list R)
    (lc : list (list C)) (amp delay phase : R) (c : C) :
  amp = Cmod (RtoC (Re z)) ->
  delay = IZR (Z.of_nat 0 - Z.of_nat 0) * dt ->
  phase = angle (RtoC (Re z)) - angle h0 + 2 * PI ->
  c = (Cscal amp X0 * cis (- (2 * PI * f0 * delay) + phase))%C ->
  loop_body (mkReference [X0] [f0] [h0] 0) dt (mkState [z] a am la ld lp lc)
  = Done (mkState [(z - c)%C] amp
            (if (length (la ++ [amp]) =? 1)%nat then amp else am)
            (la ++ [amp]) (ld ++ [delay]) (lp ++ [phase]) (lc ++ [[c]])).
Proof.
  intros Ha Hd Hp Hc.
  rewrite (loop_body_eval _ dt _ 0%nat [(z - c)%C]); cbn [residue original_spectrum
    omega original_hilbert original_argpeak amplitudes delays phases components
    amp_max length]; try rewrite pass_hilbert_1; cbn [nth];
    try rewrite <- Ha; try rewrite <- Hd; try rewrite <- Hp;
    try discriminate; try lia; try reflexivity.
  - assert (E : reconstruct (mkReference [X0] [f0] [h0] 0)
                  (spec_half [X0] [f0] amp delay phase) = [c]).
    { unfold reconstruct, spec_half, spec_boundary; simpl. rewrite <- Hc.
      reflexivity. }
    rewrite E, idft_1. reflexivity.
  - unfold reconstruct, spec_half, spec_boundary; simpl. rewrite <- Hc.
    reflexivity.
Qed.

(** The run on [measured = original = [1.0]], [delta_t = 1],
    [threshold = 0.4]: two passes, the second one stops the loop. *)
Lemma unit_run :
  extract_CLEAN_run 2 [1] [1] 1 (2 / 5)
  = Done (2%nat,
          mkState [C0] 0 1 [1; 0] [0; 0] [2 * PI; 2 * PI] [[C1]; [C0]]).
Proof.
  unfold extract_CLEAN_run.
  destruct (prepare_Done [1] [1] 1) as [i [Hi Hp]];
    try discriminate; try lra.
  rewrite analytic_1 in Hi, Hp. simpl in Hi. inversion Hi; subst i.
  rewrite Hp. cbn [bind fst snd map length]. rewrite dft_1.
  unfold fftfreq_bins. cbn [Nat.sub Nat.div Nat.divmod fst Nat.add seq map app].
  set (f0 := IZR (Z.of_nat 0) * (1 / (INR 1 * 1))).
  rewrite loop_step by (simpl; lra).
  rewrite (loop_body_1 _ _ _ f0 1 1 2 [] [] [] [] 1 0 (2 * PI) C1).
  - cbn [bind app length Nat.eqb].
    rewrite loop_step by (simpl; lra).
    rewrite (loop_body_1 _ _ _ f0 1 1 1 [1] [0] [2 * PI] [[C1]] 0 0 (2 * PI) C0).
    + cbn [bind app length Nat.eqb].
      rewrite loop_stop by (simpl; lra).
      do 4 f_equal. Ceq.
    + simpl. symmetry. replace (1 - 1) with 0 by ring. apply Cmod_RtoC. lra.
    + simpl. ring.
    + simpl. replace (1 - 1) with 0 by ring.
      change (RtoC 0) with C0. rewrite angle_C0, angle_pos_real by lra.
      ring.
    + Ceq.
  - simpl. symmetry. apply Cmod_RtoC. lra.
  - simpl. ring.
  - simpl. fold (RtoC 1). rewrite angle_pos_real by lra. ring.
  - replace (- (2 * PI * f0 * 0) + 2 * PI) with (2 * PI) by ring.
    rewrite cis_2PI. Ceq.
Qed.

(** ** Fuel only bounds the number of passes *)

Lemma loop_more_fuel (ref : reference) (dt t : R) (n fuel : nat) :
  forall (k : nat) (st : state),
    loop ref dt t fuel k st <> OutOfFuel ->
    loop ref dt t (fuel + n) k st = loop ref dt t fuel k st.
Proof.
  induction fuel as [|fuel IH]; intros k st H.
  - simpl in H. destruct (Rgt_dec (amplitude st) (t * amp_max st)) as [Hgt|Hle];
      [congruence|].
    rewrite !loop_stop by exact Hle. reflexivity.
  - cbn [Nat.add]. simpl in H |- *.
    destruct (Rgt_dec (amplitude st) (t * amp_max st)) as [Hgt|Hle];
      [|reflexivity].
    destruct (loop_body ref dt st) as [st1|e|]; cbn [bind] in *;
      [apply IH; exact H | reflexivity | congruence].
Qed.

(** A result obtained with some fuel is the result with any more fuel. *)
Lemma extract_CLEAN_more_fuel (n fuel : nat) (m o : list R) (dt t : R) :
  extract_CLEAN fuel m o dt t <> OutOfFuel ->
  extract_CLEAN (fuel + n) m o dt t = extract_CLEAN fuel m o dt t.
Proof.
  unfold extract_CLEAN, extract_CLEAN_run. intros H.
  destruct (prepare m o dt) as [[ref st0]|e|]; cbn [bind fst snd] in *;
    try reflexivity.
  rewrite loop_more_fuel; [reflexivity|].
  intros E. rewrite E in H. apply H. reflexivity.
Qed.

(** Below [threshold = 0.5] the sentinels do what they are there for: on
    non-empty signals of equal length the first pass is made and completes. *)
Lemma first_pass_runs (fuel : nat) (m o : list R) (dt t : R) :
  m <> [] -> length m = length o -> dt <> 0 -> t < 1 / 2 ->
  exists ref st0 st1,
    prepare m o dt = Done (ref, st0) /\
    loop_body ref dt st0 = Done st1 /\
    extract_CLEAN_run (S fuel) m o dt t = loop ref dt t fuel 1 st1.
Proof.
  intros Hm Hlen Hdt Ht.
  assert (Ho : o <> []).
  { apply length_nonnil. rewrite <- Hlen. apply length_nonnil, Hm. }
  destruct (prepare_Done m o dt Hm Ho Hdt) as [oi [_ Hp]].
  set (ref := mkReference (dft (map RtoC o))
                (map (fun j => IZR j * (1 / (INR (length o) * dt)))
                     (fftfreq_bins (length o)))
                (analytic o) oi) in *.
  set (st0 := mkState (dft (map RtoC m)) 1 2 [] [] [] []) in *.
  assert (HL : (1 <= length (original_spectrum ref))%nat).
  { cbn [ref original_spectrum]. rewrite length_dft, length_map.
    apply length_nonnil in Ho. lia. }
  assert (Hw : length (omega ref) = length (original_spectrum ref)).
  { cbn [ref original_spectrum omega].
    rewrite length_map, length_dft, length_map. apply length_fftfreq_bins.
    apply length_nonnil in Ho. lia. }
  assert (Hres : residue st0 <> []).
  { cbn [st0 residue]. rewrite <- length_nonnil, length_dft, length_map.
    apply length_nonnil, Hm. }
  destruct (argmax_Done (map Cmod (pass_hilbert (residue st0)))) as [i Hi].
  { rewrite <- length_nonnil, length_map, pass_hilbert_length.
    apply length_nonnil, Hres. }
  pose proof (loop_body_eval ref dt st0 i) as Hbody. cbv zeta in Hbody.
  unfold broadcast2 in Hbody at 1.
  destruct (Nat.eq_dec (length (residue st0)) _) as [_|Hne] in Hbody.
  - specialize (Hbody _ Hres HL Hw Hi eq_refl).
    do 3 eexists. split; [exact Hp|]. split; [exact Hbody|].
    unfold extract_CLEAN_run. rewrite Hp. cbn [bind fst snd].
    unfold st0 at 1. rewrite loop_sentinels_enter by exact Ht.
    fold st0. rewrite Hbody. reflexivity.
  - exfalso. apply Hne.
    rewrite length_reconstruct by (try apply length_spec_half; exact HL).
    cbn [st0 ref residue original_spectrum].
    rewrite !length_dft, !length_map. exact Hlen.
Qed.

(** ** The accumulators and the pass count *)

Lemma loop_body_accumulated (ref : reference) (dt : R) (k : nat)
    (st st' : state) :
  loop_body ref dt st = Done st' ->
  accumulated k st -> accumulated (S k) st'.
Proof.
  intros H (Ha & Hd & Hp & Hc & _).
  apply loop_body_Done_inv in H.
  destruct H as (i & cs & res' & _ & _ & _ & _ & _ & ->).
  unfold accumulated; cbn [amplitudes delays phases components amplitude].
  rewrite !length_app; cbn [length].
  repeat split; try lia. intros _. eexists; reflexivity.
Qed.

Lemma loop_accumulated (ref : reference) (dt t : R) (fuel : nat) :
  forall (k : nat) (st : state) (k' : nat) (st' : state),
    loop ref dt t fuel k st = Done (k', st') ->
    accumulated k st ->
    accumulated k' st' /\ (k <= k')%nat /\
    ~ amplitude st' > t * amp_max st'.
Proof.
  induction fuel as [|fuel IH]; intros k st k' st' H Hacc; simpl in H;
    destruct (Rgt_dec (amplitude st) (t * amp_max st)) as [Hgt|Hle];
    try discriminate;
    try (inversion H; subst; split; [assumption | split; [lia | assumption]]).
  apply bind_Done in H. destruct H as [st1 [Hb Hl]].
  apply IH in Hl; [|eapply loop_body_accumulated; eassumption].
  destruct Hl as (Hacc' & Hk & Hstop).
  split; [assumption | split; [lia | assumption]].
Qed.

Lemma run_accumulated (fuel : nat) (m o : list R) (dt t : R) (k : nat)
    (st : state) :
  extract_CLEAN_run fuel m o dt t = Done (k, st) ->
  accumulated k st /\ ~ amplitude st > t * amp_max st.
Proof.
  unfold extract_CLEAN_run. intros H.
  apply bind_Done in H. destruct H as [[ref st0] [Hp Hl]].
  cbn [fst snd] in Hl.
  assert (Hacc0 : accumulated 0 st0).
  { unfold prepare in Hp.
    repeat (apply bind_Done in Hp; destruct Hp as [? [_ Hp]]).
    inversion Hp; subst.
    unfold accumulated; simpl. repeat split; try reflexivity. lia. }
  apply loop_accumulated in Hl; [|exact Hacc0]. tauto.
Qed.

Lemma app_last_length {A : Type} (l : list A) (k : nat) :
  length l = k -> (1 <= k)%nat -> exists x, l = removelast l ++ [x].
Proof.
  intros Hl Hk. destruct (exists_last (l := l)) as [l' [x E]].
  - intros ->. simpl in Hl. lia.
  - exists x. rewrite E at 2. rewrite removelast_last. exact E.
Qed.

(** C3: when the loop stops after [k >= 1] passes, the function returns the
    accumulators without their last entries, those of the final pass, whose
    amplitude failed the loop test; each returned array has length [k - 1]. *)
Theorem C3_final_pass_discarded (fuel : nat) (m o : list R) (dt t : R)
    (k : nat) (st : state) :
  extract_CLEAN_run fuel m o dt t = Done (k, st) ->
  (1 <= k)%nat ->
  exists r d p c,
    extract_CLEAN fuel m o dt t = Done r /\
    amplitudes st = out_amplitudes r ++ [amplitude st] /\
    ~ amplitude st > t * amp_max st /\
    delays st = out_delays r ++ [d] /\
    phases st = out_phases r ++ [p] /\
    components st = out_components r ++ [c] /\
    length (out_amplitudes r) = (k - 1)%nat /\
    length (out_delays r) = (k - 1)%nat /\
    length (out_phases r) = (k - 1)%nat /\
    length (out_components r) = (k - 1)%nat.
Proof.
  intros Hrun Hk.
  destruct (run_accumulated _ _ _ _ _ _ _ Hrun)
    as [(Ha & Hd & Hp & Hc & Hlast) Hstop].
  destruct (Hlast Hk) as [la Hla].
  destruct (app_last_length _ _ Hd Hk) as [d Ed].
  destruct (app_last_length _ _ Hp Hk) as [p Ep].
  destruct (app_last_length _ _ Hc Hk) as [c Ec].
  exists (returned st), d, p, c.
  unfold extract_CLEAN. rewrite Hrun. cbn [bind snd].
  unfold returned, drop_last;
    cbn [out_amplitudes out_delays out_phases out_components].
  rewrite !length_removelast, Ha, Hd, Hp, Hc.
  repeat split; try assumption; try reflexivity.
  rewrite Hla at 2. rewrite removelast_last. exact Hla.
Qed.

Lemma C3_final_pass_discarded_witness :
  exists r d p c,
    extract_CLEAN 2 [1] [1] 1 (2 / 5) = Done r /\
    [1; 0] = out_amplitudes r ++ [0] /\
    ~ 0 > 2 / 5 * 1 /\
    [0; 0] = out_delays r ++ [d] /\
    [2 * PI; 2 * PI] = out_phases r ++ [p] /\
    [[C1]; [C0]] = out_components r ++ [c] /\
    length (out_amplitudes r) = (2 - 1)%nat /\
    length (out_delays r) = (2 - 1)%nat /\
    length (out_phases r) = (2 - 1)%nat /\
    length (out_components r) = (2 - 1)%nat.
Proof.
  apply (C3_final_pass_discarded 2 [1] [1] 1 (2 / 5) 2
           (mkState [C0] 0 1 [1; 0] [0; 0] [2 * PI; 2 * PI] [[C1]; [C0]])).
  - exact unit_run.
  - lia.
Defined.

(** ** Finite sums *)

Lemma Rsum_ext_lt (f g : nat -> R) (n : nat) :
  (forall k, (k < n)%nat -> f k = g k) -> Rsum f n = Rsum g n.
Proof.
  induction n as [|n IH]; intros H; simpl; [reflexivity|].
  rewrite IH, (H n) by (intros; try apply H; lia). reflexivity.
Qed.

Lemma Rsum_zero (f : nat -> R) (n : nat) :
  (forall k, (k < n)%nat -> f k = 0) -> Rsum f n = 0.
Proof.
  induction n as [|n IH]; intros H; simpl; [reflexivity|].
  rewrite IH, (H n) by (intros; try apply H; lia). ring.
Qed.

Lemma Rsum_scal (c : R) (f : nat -> R) (n : nat) :
  Rsum (fun k => c * f k) n = c * Rsum f n.
Proof. induction n as [|n IH]; simpl; [ring|]. rewrite IH. ring. Qed.

Lemma Rsum_plus (f g : nat -> R) (n : nat) :
  Rsum (fun k => f k + g k) n = Rsum f n + Rsum g n.
Proof. induction n as [|n IH]; simpl; [ring|]. rewrite IH. ring. Qed.

Lemma Rsum_opp (f : nat -> R) (n : nat) :
  Rsum (fun k => - f k) n = - Rsum f n.
Proof. induction n as [|n IH]; simpl; [ring|]. rewrite IH. ring. Qed.

Lemma Rsum_swap (f : nat -> nat -> R) (n m : nat) :
  Rsum (fun i => Rsum (fun j => f i j) m) n
  = Rsum (fun j => Rsum (fun i => f i j) n) m.
Proof.
  induction n as [|n IH]; simpl.
  - symmetry. apply Rsum_zero. reflexivity.
  - rewrite IH, <- Rsum_plus. reflexivity.
Qed.

Lemma Rsum_shift (f : nat -> R) (n : nat) :
  Rsum f (S n) = f 0%nat + Rsum (fun j => f (S j)) n.
Proof.
  induction n as [|n IH]; [simpl; ring|].
  change (Rsum f (S (S n))) with (Rsum f (S n) + f (S n)).
  rewrite IH. simpl. ring.
Qed.

Lemma Rsum_rev (f : nat -> R) (n : nat) :
  Rsum f n = Rsum (fun k => f (n - 1 - k)%nat) n.
Proof.
  revert f. induction n as [|n IH]; intros f; [reflexivity|].
  rewrite Rsum_shift. cbn [Rsum].
  replace (S n - 1 - n)%nat with 0%nat by lia.
  rewrite (IH (fun j => f (S j))). rewrite Rplus_comm. f_equal.
  apply Rsum_ext_lt. intros k Hk. f_equal. lia.
Qed.

(** A sum with a single non-zero term. *)
Lemma Rsum_single (f : nat -> R) (n i : nat) :
  (i < n)%nat -> (forall k, (k < n)%nat -> k <> i -> f k = 0) ->
  Rsum f n = f i.
Proof.
  induction n as [|n IH]; intros Hi H; [lia|]. simpl.
  destruct (Nat.eq_dec i n) as [->|Hne].
  - rewrite Rsum_zero; [ring|]. intros k Hk. apply H; lia.
  - rewrite IH, (H n) by (try lia; intros; apply H; lia). ring.
Qed.

Lemma Re_Csum (f : nat -> C) (n : nat) :
  Re (Csum f n) = Rsum (fun k => Re (f k)) n.
Proof. induction n as [|n IH]; simpl; [reflexivity|]. rewrite IH. reflexivity. Qed.

Lemma Im_Csum (f : nat -> C) (n : nat) :
  Im (Csum f n) = Rsum (fun k => Im (f k)) n.
Proof. induction n as [|n IH]; simpl; [reflexivity|]. rewrite IH. reflexivity. Qed.

(** ** Entries of the transforms *)

Lemma nth_map_seq {A : Type} (f : nat -> A) (n N : nat) (d : A) :
  (n < N)%nat -> nth n (map f (seq 0 N)) d = f n.
Proof.
  intros H. rewrite (nth_indep _ d (f 0%nat)) by (rewrite length_map, length_seq; lia).
  rewrite map_nth, seq_nth by lia. reflexivity.
Qed.

Lemma nth_dft (a : list C) (k : nat) :
  (k < length a)%nat ->
  nth k (dft a) C0
  = Csum (fun m => (nth m a C0
                    * cis (- (2 * PI * INR m * INR k / INR (length a))))%C)
         (length a).
Proof. intros H. unfold dft. rewrite nth_map_seq by assumption. reflexivity. Qed.

Lemma nth_idft (a : list C) (m : nat) :
  (m < length a)%nat ->
  nth m (idft a) C0
  = Cscal (1 / INR (length a))
      (Csum (fun k => (nth k a C0
                       * cis (2 * PI * INR m * INR k / INR (length a)))%C)
            (length a)).
Proof. intros H. unfold idft. rewrite nth_map_seq by assumption. reflexivity. Qed.

Lemma nth_map_RtoC (x : list R) (m : nat) :
  nth m (map RtoC x) C0 = RtoC (nth m x 0).
Proof. change C0 with (RtoC 0). apply map_nth. Qed.

(** The real part of the inverse transform of a real-weighted forward
    transform of a real signal, as a double sum of cosines. *)
Lemma Re_idft_weighted_dft (h : nat -> R) (x : list R) (n : nat) :
  (n < length x)%nat ->
  Re (nth n (idft (map (fun k => Cscal (h k) (nth k (dft (map RtoC x)) C0))
                       (seq 0 (length x)))) C0)
  = 1 / INR (length x)
    * Rsum (fun m =>
              nth m x 0
              * Rsum (fun k =>
                        h k * cos (INR k * (2 * PI * (INR n - INR m)
                                            / INR (length x))))
                     (length x))
           (length x).
Proof.
  intros Hn. set (N := length x) in *.
  assert (HN : INR N <> 0) by (apply not_0_INR; lia).
  rewrite nth_idft; rewrite length_map, length_seq; [|exact Hn]. fold N.
  cbn [Re Cscal]. f_equal. rewrite Re_Csum.
  rewrite (Rsum_ext_lt _
             (fun k => Rsum (fun m => nth m x 0
                * (h k * cos (INR k * (2 * PI * (INR n - INR m) / INR N)))) N)).
  - rewrite Rsum_swap. apply Rsum_ext_lt. intros m Hm.
    rewrite Rsum_scal. reflexivity.
  - intros k Hk. rewrite nth_map_seq by exact Hk.
    rewrite nth_dft; rewrite length_map; [|exact Hk]. fold N.
    cbn [Re Im Cmul Cscal cis]. rewrite Re_Csum, Im_Csum.
    rewrite <- !Rsum_scal.
    replace (Rsum (fun j => h k * Re (nth j (map RtoC x) C0
                  * cis (- (2 * PI * INR j * INR k / INR N)))%C) N
             * cos (2 * PI * INR n * INR k / INR N)
             - Rsum (fun j => h k * Im (nth j (map RtoC x) C0
                  * cis (- (2 * PI * INR j * INR k / INR N)))%C) N
               * sin (2 * PI * INR n * INR k / INR N))
      with (Rsum (fun j =>
                    cos (2 * PI * INR n * INR k / INR N)
                    * (h k * Re (nth j (map RtoC x) C0
                        * cis (- (2 * PI * INR j * INR k / INR N)))%C)
                    + - (sin (2 * PI * INR n * INR k / INR N)
                         * (h k * Im (nth j (map RtoC x) C0
                        * cis (- (2 * PI * INR j * INR k / INR N)))%C))) N)
      by (rewrite Rsum_plus, Rsum_opp, !Rsum_scal; ring).
    apply Rsum_ext_lt. intros m Hm.
    rewrite nth_map_RtoC. cbn [Re Im Cmul RtoC cis].
    rewrite cos_neg, sin_neg.
    replace (INR k * (2 * PI * (INR n - INR m) / INR N))
      with (2 * PI * INR n * INR k / INR N - 2 * PI * INR m * INR k / INR N)
      by (field; exact HN).
    rewrite cos_minus. ring.
Qed.

(** ** Sums of cosines over a full period *)

Lemma cos_sum_telescope (t : R) (N : nat) :
  2 * sin (t / 2) * Rsum (fun k => cos (INR k * t)) N
  = sin ((INR N - 1 / 2) * t) + sin (t / 2).
Proof.
  induction N as [|N IH].
  - simpl. replace ((0 - 1 / 2) * t) with (- (t / 2)) by field.
    rewrite sin_neg. ring.
  - cbn [Rsum]. rewrite Rmult_plus_distr_l, IH, S_INR.
    replace ((INR N + 1 - 1 / 2) * t) with (INR N * t + t / 2) by field.
    replace ((INR N - 1 / 2) * t) with (INR N * t - t / 2) by field.
    rewrite sin_plus, sin_minus. ring.
Qed.

Lemma sin_whole_turns (a b : nat) (p : R) :
  sin (2 * PI * (INR a - INR b) - p) = - sin p.
Proof.
  replace (2 * PI * (INR a - INR b) - p)
    with (- (p + 2 * INR b * PI) + 2 * INR a * PI) by ring.
  rewrite sin_period, sin_neg, sin_period. reflexivity.
Qed.

Lemma cos_whole_turns (a b : nat) (p : R) :
  cos (2 * PI * (INR a - INR b) - p) = cos p.
Proof.
  replace (2 * PI * (INR a - INR b) - p)
    with (- (p + 2 * INR b * PI) + 2 * INR a * PI) by ring.
  rewrite cos_period, cos_neg, cos_period. reflexivity.
Qed.

Lemma sin_half_step_nonzero (n m N : nat) :
  (n < N)%nat -> (m < N)%nat -> n <> m ->
  sin (2 * PI * (INR n - INR m) / INR N / 2) <> 0.
Proof.
  intros Hn Hm Hne.
  assert (HN : 0 < INR N) by (apply lt_0_INR; lia).
  pose proof PI_RGT_0 as Hpi.
  pose proof (pos_INR n) as Hn0. pose proof (pos_INR m) as Hm0.
  apply lt_INR in Hn. apply lt_INR in Hm.
  set (q := (INR n - INR m) / INR N).
  replace (2 * PI * (INR n - INR m) / INR N / 2) with (PI * q)
    by (unfold q; field; lra).
  assert (Hq : q * INR N = INR n - INR m) by (unfold q; field; lra).
  destruct (Nat.lt_total n m) as [Hlt|[Heq|Hgt]]; [|contradiction|].
  - apply lt_INR in Hlt.
    assert (Hq1 : -1 < q < 0) by (split; nra).
    assert (0 < sin (- (PI * q))); [|rewrite sin_neg in *; lra].
    apply sin_gt_0; nra.
  - apply lt_INR in Hgt.
    assert (Hq1 : 0 < q < 1) by (split; nra).
    assert (0 < sin (PI * q)); [|lra].
    apply sin_gt_0; nra.
Qed.

(** Orthogonality of the cosines of the transform. *)
Lemma cos_sum_full_period (n m N : nat) :
  (n < N)%nat -> (m < N)%nat ->
  Rsum (fun k => cos (INR k * (2 * PI * (INR n - INR m) / INR N))) N
  = if Nat.eq_dec n m then INR N else 0.
Proof.
  intros Hn Hm.
  assert (HN : INR N <> 0) by (apply not_0_INR; lia).
  destruct (Nat.eq_dec n m) as [->|Hne].
  - rewrite (Rsum_ext_lt _ (fun _ => 1)).
    + clear. induction N as [|N IH]; [reflexivity|].
      cbn [Rsum]. rewrite IH, S_INR. reflexivity.
    + intros k _. rewrite <- cos_0. f_equal. field. exact HN.
  - set (t := 2 * PI * (INR n - INR m) / INR N).
    pose proof (cos_sum_telescope t N) as H.
    pose proof (sin_half_step_nonzero n m N Hn Hm Hne) as Hs. fold t in Hs.
    replace ((INR N - 1 / 2) * t) with (2 * PI * (INR n - INR m) - t / 2) in H
      by (unfold t; field; exact HN).
    rewrite sin_whole_turns in H.
    assert (E : 2 * sin (t / 2) * Rsum (fun k => cos (INR k * t)) N = 0) by lra.
    apply Rmult_integral in E. destruct E as [E|E]; [|exact E].
    exfalso. lra.
Qed.

(** ** The weights of the Hilbert construction *)

Lemma hilbert_h_0 (N : nat) : hilbert_h N 0 = 1.
Proof. unfold hilbert_h. destruct (Nat.even N); reflexivity. Qed.

(** Around the middle of the spectrum the weights are mirror images:
    [h (N - k) - 1 = - (h k - 1)] for [0 < k < N]. *)
Lemma hilbert_h_mirror (N k : nat) :
  (1 <= k)%nat -> (k < N)%nat ->
  hilbert_h N (N - k) - 1 = - (hilbert_h N k - 1).
Proof.
  intros Hk HkN. unfold hilbert_h.
  destruct (Nat.even N) eqn:E.
  - apply Nat.even_spec in E. destruct E as [q E].
    replace (N / 2)%nat with q by lia.
    destruct (Nat.eqb_spec (N - k) 0); [lia|].
    destruct (Nat.eqb_spec k 0); [lia|]. cbn [orb].
    destruct (Nat.eqb_spec (N - k) q); destruct (Nat.eqb_spec k q); try lia;
      try (ring_simplify; reflexivity);
      destruct (Nat.ltb_spec (N - k) q); destruct (Nat.ltb_spec k q);
      try lia; ring.
  - apply (f_equal negb) in E. rewrite Nat.negb_even in E.
    apply Nat.odd_spec in E. destruct E as [q E].
    replace ((N + 1) / 2)%nat with (q + 1)%nat by lia.
    destruct (Nat.eqb_spec (N - k) 0); [lia|].
    destruct (Nat.eqb_spec k 0); [lia|].
    destruct (Nat.ltb_spec (N - k) (q + 1)); destruct (Nat.ltb_spec k (q + 1));
      try lia; ring.
Qed.

(** A summand that changes sign under [k -> N - k] and vanishes at 0 sums
    to zero. *)
Lemma Rsum_antisymmetric (F : nat -> R) (N : nat) :
  F 0%nat = 0 ->
  (forall k, (1 <= k)%nat -> (k < N)%nat -> F (N - k)%nat = - F k) ->
  Rsum F N = 0.
Proof.
  intros H0 Hanti. destruct N as [|N']; [reflexivity|].
  rewrite Rsum_shift, H0.
  assert (E : Rsum (fun j => F (S j)) N' = - Rsum (fun j => F (S j)) N').
  { rewrite (Rsum_rev (fun j => F (S j)) N') at 1.
    rewrite <- Rsum_opp. apply Rsum_ext_lt. intros j Hj.
    rewrite <- Hanti by lia. f_equal. lia. }
  lra.
Qed.

Lemma hilbert_cos_sum (n m N : nat) :
  (n < N)%nat -> (m < N)%nat ->
  Rsum (fun k => hilbert_h N k
                 * cos (INR k * (2 * PI * (INR n - INR m) / INR N))) N
  = if Nat.eq_dec n m then INR N else 0.
Proof.
  intros Hn Hm.
  assert (HN : INR N <> 0) by (apply not_0_INR; lia).
  set (t := 2 * PI * (INR n - INR m) / INR N).
  rewrite <- (cos_sum_full_period n m N Hn Hm). fold t.
  rewrite (Rsum_ext_lt _
             (fun k => cos (INR k * t) + (hilbert_h N k - 1) * cos (INR k * t)))
    by (intros; ring).
  rewrite Rsum_plus.
  rewrite (Rsum_antisymmetric (fun k => (hilbert_h N k - 1) * cos (INR k * t))).
  - ring.
  - rewrite hilbert_h_0. ring.
  - intros k Hk HkN. rewrite hilbert_h_mirror by assumption.
    rewrite minus_INR by lia.
    replace ((INR N - INR k) * t)
      with (2 * PI * (INR n - INR m) - INR k * t) by (unfold t; field; exact HN).
    rewrite cos_whole_turns. ring.
Qed.

(** ** Inverting the transform *)

Lemma Rsum_pick (x : list R) (n : nat) (c : R) :
  (n < length x)%nat ->
  Rsum (fun m => nth m x 0 * (if Nat.eq_dec n m then c else 0)) (length x)
  = nth n x 0 * c.
Proof.
  intros Hn.
  rewrite (Rsum_single _ (length x) n Hn).
  - destruct (Nat.eq_dec n n); [reflexivity | congruence].
  - intros k _ Hk. destruct (Nat.eq_dec n k); [congruence | ring].
Qed.

(** The analytic signal of a real signal has that signal as its real
    part. *)
Lemma Re_analytic (x : list R) : map Re (analytic x) = x.
Proof.
  apply (nth_ext _ _ 0 0).
  - rewrite length_map, length_analytic. reflexivity.
  - rewrite length_map, length_analytic. intros n Hn.
    change 0 with (Re C0) at 1. rewrite map_nth.
    unfold analytic. rewrite Re_idft_weighted_dft by exact Hn.
    rewrite (Rsum_ext_lt _
               (fun m => nth m x 0
                         * (if Nat.eq_dec n m then INR (length x) else 0))).
    + rewrite Rsum_pick by exact Hn. field. apply not_0_INR. lia.
    + intros m Hm. rewrite hilbert_cos_sum by assumption. reflexivity.
Qed.

(** The forward transform followed by the inverse transform gives back a
    real signal (in its real part). *)
Lemma Re_idft_dft (x : list R) : map Re (idft (dft (map RtoC x))) = x.
Proof.
  apply (nth_ext _ _ 0 0).
  - rewrite length_map, length_idft, length_dft, length_map. reflexivity.
  - rewrite length_map, length_idft, length_dft, length_map. intros n Hn.
    change 0 with (Re C0) at 1. rewrite map_nth.
    replace (dft (map RtoC x))
      with (map (fun k => Cscal ((fun _ => 1) k) (nth k (dft (map RtoC x)) C0))
                (seq 0 (length x))).
    + rewrite Re_idft_weighted_dft by exact Hn.
      rewrite (Rsum_ext_lt _
                 (fun m => nth m x 0
                           * (if Nat.eq_dec n m then INR (length x) else 0))).
      * rewrite Rsum_pick by exact Hn. field. apply not_0_INR. lia.
      * intros m Hm. rewrite <- (cos_sum_full_period n m) by assumption.
        f_equal. apply Rsum_ext_lt. intros; ring.
    + apply (nth_ext _ _ C0 C0).
      * rewrite length_map, length_seq, length_dft, length_map. reflexivity.
      * rewrite length_map, length_seq. intros k Hk.
        rewrite nth_map_seq by exact Hk. apply Cscal_1.
Qed.

Lemma nth_fftfreq_bins (N k : nat) :
  (k < N)%nat ->
  nth k (fftfreq_bins N) 0%Z
  = if (k <? (N - 1) / 2 + 1)%nat then Z.of_nat k
    else (Z.of_nat k - Z.of_nat N)%Z.
Proof.
  intros Hk. unfold fftfreq_bins.
  destruct (Nat.ltb_spec k ((N - 1) / 2 + 1)) as [H|H].
  - rewrite app_nth1 by (rewrite length_map, length_seq; exact H).
    apply nth_map_seq. exact H.
  - rewrite app_nth2; rewrite length_map, length_seq; [|exact H].
    rewrite nth_map_seq by lia. lia.
Qed.

(** The weights [h] are the specification's: by the sign of the bin's
    frequency, with DC and Nyquist left alone. *)
Lemma hilbert_h_spec_weight (N k : nat) :
  (k < N)%nat ->
  hilbert_h N k = spec_weight N (nth k (fftfreq_bins N) 0%Z).
Proof.
  intros Hk. rewrite nth_fftfreq_bins by exact Hk.
  unfold hilbert_h, spec_weight.
  destruct (Nat.even N) eqn:E.
  - apply Nat.even_spec in E. destruct E as [q E].
    replace (N / 2)%nat with q by lia.
    replace ((N - 1) / 2 + 1)%nat with q by lia.
    destruct (Nat.ltb_spec k q) as [H|H].
    + destruct (Nat.eqb_spec k 0) as [H0|H0];
        destruct (Z.eqb_spec (Z.of_nat k) 0); try lia; [reflexivity|].
      destruct (Nat.eqb_spec k q); [lia|]. cbn [orb].
      destruct (Z.eqb_spec (2 * Z.abs (Z.of_nat k)) (Z.of_nat N)); [lia|].
      destruct (Z.ltb_spec 0 (Z.of_nat k)); [reflexivity | lia].
    + destruct (Nat.eqb_spec k 0); [lia|].
      destruct (Z.eqb_spec (Z.of_nat k - Z.of_nat N) 0); [lia|].
      destruct (Nat.eqb_spec k q) as [Hq|Hq]; cbn [orb];
        destruct (Z.eqb_spec (2 * Z.abs (Z.of_nat k - Z.of_nat N)) (Z.of_nat N));
        try lia; [reflexivity|].
      destruct (Z.ltb_spec 0 (Z.of_nat k - Z.of_nat N)); [lia | reflexivity].
  - apply (f_equal negb) in E. rewrite Nat.negb_even in E.
    apply Nat.odd_spec in E. destruct E as [q E].
    replace ((N + 1) / 2)%nat with (q + 1)%nat by lia.
    replace ((N - 1) / 2 + 1)%nat with (q + 1)%nat by lia.
    destruct (Nat.ltb_spec k (q + 1)) as [H|H].
    + destruct (Nat.eqb_spec k 0) as [H0|H0];
        destruct (Z.eqb_spec (Z.of_nat k) 0); try lia; [reflexivity|].
      destruct (Z.eqb_spec (2 * Z.abs (Z.of_nat k)) (Z.of_nat N)); [lia|].
      destruct (Z.ltb_spec 0 (Z.of_nat k)); [reflexivity | lia].
    + destruct (Nat.eqb_spec k 0); [lia|].
      destruct (Z.eqb_spec (Z.of_nat k - Z.of_nat N) 0); [lia|].
      destruct (Z.eqb_spec (2 * Z.abs (Z.of_nat k - Z.of_nat N)) (Z.of_nat N));
        [lia|].
      destruct (Z.ltb_spec 0 (Z.of_nat k - Z.of_nat N)); [lia | reflexivity].
Qed.

(** C10: for every real signal, the analytic signal returned by the
    Hilbert construction -- forward transform, bins weighted 0 where the
    frequency is negative, 2 where it is strictly positive, 1 at DC and
    Nyquist, inverse transform -- has the signal as its real part; the
    construction returns one for every signal with at least one sample. *)
Theorem C10_analytic_real_part (x : list R) :
  (forall k, (k < length x)%nat ->
     hilbert_h (length x) k
     = spec_weight (length x) (nth k (fftfreq_bins (length x)) 0%Z)) /\
  (x <> [] -> hilbert x = Done (analytic x)) /\
  (forall a, hilbert x = Done a -> map Re a = x).
Proof.
  split; [|split].
  - intros k Hk. apply hilbert_h_spec_weight, Hk.
  - apply hilbert_Done.
  - intros a Ha. apply hilbert_Done_inv in Ha. destruct Ha as [_ ->].
    apply Re_analytic.
Qed.

Lemma C10_analytic_real_part_witness :
  map Re (analytic [3; -1; 4]) = [3; -1; 4].
Proof.
  apply (proj2 (proj2 (C10_analytic_real_part [3; -1; 4]))). reflexivity.
Defined.

(** ** The peak search *)

Lemma argmax_from_spec (t : list R) :
  forall (pre : list R) (best : nat) (bv : R),
    (best < length pre)%nat -> nth best pre 0 = bv ->
    Forall (fun b => b <= bv) pre ->
    let j := argmax_from t (length pre) best bv in
    (j < length (pre ++ t))%nat /\
    Forall (fun b => b <= nth j (pre ++ t) 0) (pre ++ t).
Proof.
  induction t as [|x t IH]; intros pre best bv Hb Hn Hall; cbn [argmax_from].
  - rewrite app_nil_r. split; [exact Hb|]. rewrite Hn. exact Hall.
  - replace (pre ++ x :: t) with ((pre ++ [x]) ++ t)
      by (rewrite <- app_assoc; reflexivity).
    replace (S (length pre)) with (length (pre ++ [x]))
      by (rewrite length_app; simpl; lia).
    destruct (Rlt_dec bv x) as [Hlt|Hge]; apply IH.
    + rewrite length_app; simpl; lia.
    + apply nth_middle.
    + apply Forall_app. split; [|constructor; [lra | constructor]].
      eapply Forall_impl; [|exact Hall]. simpl. intros; lra.
    + rewrite length_app; simpl; lia.
    + rewrite app_nth1 by exact Hb. exact Hn.
    + apply Forall_app. split; [exact Hall|]. constructor; [lra | constructor].
Qed.

Lemma argmax_is_max (l : list R) (i : nat) :
  argmax l = Done i -> (i < length l)%nat /\ is_max (nth i l 0) l.
Proof.
  destruct l as [|x t]; intros H; [discriminate|].
  cbn [argmax] in H. inversion H as [Hi]. clear H.
  destruct (argmax_from_spec t [x] 0 x) as [Hlt Hall];
    [simpl; lia | reflexivity | constructor; [lra | constructor] |].
  change ([x] ++ t) with (x :: t) in Hlt, Hall.
  change (length [x]) with 1%nat in Hlt, Hall.
  split; [exact Hlt|].
  split; [apply nth_In; exact Hlt | exact Hall].
Qed.

Lemma nth_map_Cmod (i : nat) (l : list C) :
  nth i (map Cmod l) 0 = Cmod (nth i l C0).
Proof. rewrite <- Cmod_C0 at 1. apply map_nth. Qed.

(** ** The first amplitude *)

(** On the first pass the residue is the measured spectrum, the signal
    searched is the measured signal itself, and the amplitude found is the
    peak of its envelope. *)
Lemma first_pass_amplitude (ref : reference) (dt : R) (m : list R)
    (a am : R) (ld lp : list R) (lc : list (list C)) (st1 : state) :
  loop_body ref dt (mkState (dft (map RtoC m)) a am [] ld lp lc) = Done st1 ->
  exists a1, amplitudes st1 = [a1] /\ is_max a1 (map Cmod (analytic m)).
Proof.
  intros H. apply loop_body_Done_inv in H.
  destruct H as (i & cs & res' & _ & Hi & _ & _ & _ & ->).
  cbn [residue amplitudes app] in *.
  unfold pass_hilbert in *. rewrite Re_idft_dft in *.
  eexists. split; [reflexivity|].
  apply argmax_is_max in Hi. destruct Hi as [_ Hmax].
  rewrite nth_map_Cmod in Hmax. exact Hmax.
Qed.

Lemma loop_keeps_head (ref : reference) (dt t : R) (fuel : nat) :
  forall (k : nat) (st : state) (k' : nat) (st' : state) (a : R)
         (rest : list R),
    loop ref dt t fuel k st = Done (k', st') ->
    amplitudes st = a :: rest ->
    exists rest', amplitudes st' = a :: rest'.
Proof.
  induction fuel as [|fuel IH]; intros k st k' st' a rest H Ha; simpl in H;
    destruct (Rgt_dec (amplitude st) (t * amp_max st)) as [Hgt|Hle];
    try discriminate;
    try (inversion H; subst; eexists; exact Ha).
  apply bind_Done in H. destruct H as [st1 [Hb Hl]].
  apply loop_body_Done_inv in Hb.
  destruct Hb as (i & cs & res' & _ & _ & _ & _ & _ & ->).
  eapply IH; [exact Hl|].
  cbn [amplitudes]. rewrite Ha. reflexivity.
Qed.

Lemma run_first_amplitude (fuel : nat) (m o : list R) (dt t : R) (k : nat)
    (st : state) :
  extract_CLEAN_run fuel m o dt t = Done (k, st) ->
  amplitudes st = [] \/
  exists a1 rest, amplitudes st = a1 :: rest
                  /\ is_max a1 (map Cmod (analytic m)).
Proof.
  unfold extract_CLEAN_run. intros H.
  apply bind_Done in H. destruct H as [[ref st0] [Hp Hl]].
  cbn [fst snd] in Hl.
  assert (E : st0 = mkState (dft (map RtoC m)) 1 2 [] [] [] []).
  { unfold prepare in Hp.
    apply bind_Done in Hp. destruct Hp as [os [_ Hp]].
    apply bind_Done in Hp. destruct Hp as [ms [Hms Hp]].
    repeat (apply bind_Done in Hp; destruct Hp as [? [_ Hp]]).
    inversion Hp; subst.
    destruct m; simpl in Hms; [discriminate|]. inversion Hms. reflexivity. }
  subst st0. destruct fuel as [|fuel]; simpl in Hl;
    destruct (Rgt_dec 1 (t * 2)) as [Hgt|Hle];
    try discriminate;
    try (inversion Hl; subst; left; reflexivity).
  apply bind_Done in Hl. destruct Hl as [st1 [Hb Hl]].
  apply first_pass_amplitude in Hb. destruct Hb as (a1 & Ha1 & Hmax).
  destruct (loop_keeps_head _ _ _ _ _ _ _ _ a1 [] Hl Ha1) as [rest' Hr].
  right. exists a1, rest'. split; assumption.
Qed.

(** C8: when the returned amplitudes are not empty, the first of them is
    the maximum of the magnitudes of the analytic signal of the measured
    signal. *)
Theorem C8_first_amplitude_is_peak (fuel : nat) (m o : list R) (dt t : R)
    (r : result) (a : R) (rest : list R) :
  extract_CLEAN fuel m o dt t = Done r ->
  out_amplitudes r = a :: rest ->
  is_max a (map Cmod (analytic m)).
Proof.
  unfold extract_CLEAN. intros H Hr.
  apply bind_Done in H. destruct H as [[k st] [Hrun H]].
  inversion H; subst r. clear H.
  cbn [snd returned out_amplitudes drop_last] in Hr.
  destruct (run_first_amplitude _ _ _ _ _ _ _ Hrun)
    as [E | (a1 & rest1 & E & Hmax)]; rewrite E in Hr.
  - discriminate.
  - destruct rest1; simpl in Hr; [discriminate|].
    inversion Hr; subst. exact Hmax.
Qed.

Lemma unit_result :
  extract_CLEAN 2 [1] [1] 1 (2 / 5)
  = Done (mkResult [1] [0] [2 * PI] [[C1]]).
Proof. unfold extract_CLEAN. rewrite unit_run. reflexivity. Qed.

Lemma C8_first_amplitude_is_peak_witness :
  is_max 1 (map Cmod (analytic [1])).
Proof.
  apply (C8_first_amplitude_is_peak 2 [1] [1] 1 (2 / 5)
           (mkResult [1] [0] [2 * PI] [[C1]]) 1 []).
  - exact unit_result.
  - reflexivity.
Defined.

(** ** The phase *)

Lemma unit_first_pass :
  loop_body (mkReference [C1] [0] [C1] 0) 1 (mkState [C1] 1 2 [] [] [] [])
  = Done (mkState [C0] 1 1 [1] [0] [2 * PI] [[C1]]).
Proof.
  rewrite (loop_body_1 C1 C1 C1 0 1 1 2 [] [] [] [] 1 0 (2 * PI) C1).
  - cbn [app length Nat.eqb]. do 3 f_equal. Ceq.
  - simpl. symmetry. apply Cmod_RtoC. lra.
  - simpl. ring.
  - simpl. change C1 with (RtoC 1). rewrite angle_pos_real by lra. ring.
  - replace (- (2 * PI * 0 * 0) + 2 * PI) with (2 * PI) by ring.
    rewrite cis_2PI. Ceq.
Qed.

(** ** The reconstruction in a pass *)

(** C7: in a pass over a reference spectrum [X] of length [L >= 1] (with
    the frequency vector of the same length), the program's index bound is
    [L/2 + 1] for even [L] and the ceiling of [L/2] for odd [L]; the half
    spectrum is, bin by bin over [0, boundary),
    [amplitude * X[k] * exp(i (-2 pi freq[k] delay + phase))]; the
    reconstructed spectrum is that half followed by the conjugated, reversed
    [half[1:-1]] (even [L]) or [half[1:]] (odd [L]); it has length [L]; it
    is what the pass subtracts from the residue and what the appended
    component is the inverse transform of. *)
Theorem C7_reconstructed_spectrum (ref : reference) (dt : R) (st st' : state) :
  (1 <= length (original_spectrum ref))%nat ->
  length (omega ref) = length (original_spectrum ref) ->
  loop_body ref dt st = Done st' ->
  let X := original_spectrum ref in
  let L := length X in
  exists delay phase half,
    delays st' = delays st ++ [delay] /\
    phases st' = phases st ++ [phase] /\
    nyquist_index ref = spec_boundary L /\
    component_spectrum_of ref (amplitude st') delay phase = Done half /\
    half = spec_half X (omega ref) (amplitude st') delay phase /\
    reconstruct ref half = half ++ spec_mirror L half /\
    length (reconstruct ref half) = L /\
    broadcast2 Csub (residue st) (reconstruct ref half) = Done (residue st') /\
    components st' = components st ++ [idft (reconstruct ref half)].
Proof.
  intros HL Hw H X L. apply loop_body_Done_inv in H.
  destruct H as (i & cs & res' & _ & _ & Hcs & Hsub & _ & ->).
  cbn [delays phases amplitude residue components].
  pose proof Hcs as Hcs'.
  rewrite component_spectrum_of_spec in Hcs' by assumption.
  inversion Hcs' as [Hhalf]. rewrite Hhalf in *.
  do 3 eexists. split; [reflexivity|]. split; [reflexivity|].
  split; [apply nyquist_index_boundary|].
  split; [exact Hcs|]. split; [symmetry; exact Hhalf|].
  split; [apply reconstruct_spec|].
  split; [|split; [exact Hsub | reflexivity]].
  apply length_reconstruct; [exact HL|].
  rewrite <- Hhalf. apply length_spec_half.
Qed.

Lemma C7_reconstructed_spectrum_witness :
  exists delay phase half,
    [0] = [] ++ [delay] /\
    [2 * PI] = [] ++ [phase] /\
    nyquist_index (mkReference [C1] [0] [C1] 0) = spec_boundary 1 /\
    component_spectrum_of (mkReference [C1] [0] [C1] 0) 1 delay phase
    = Done half /\
    half = spec_half [C1] [0] 1 delay phase /\
    reconstruct (mkReference [C1] [0] [C1] 0) half
    = half ++ spec_mirror 1 half /\
    length (reconstruct (mkReference [C1] [0] [C1] 0) half) = 1%nat /\
    broadcast2 Csub [C1] (reconstruct (mkReference [C1] [0] [C1] 0) half)
    = Done [C0] /\
    [[C1]] = [] ++ [idft (reconstruct (mkReference [C1] [0] [C1] 0) half)].
Proof.
  apply (C7_reconstructed_spectrum (mkReference [C1] [0] [C1] 0) 1
           (mkState [C1] 1 2 [] [] [] [])
           (mkState [C0] 1 1 [1] [0] [2 * PI] [[C1]])).
  - simpl. lia.
  - reflexivity.
  - exact unit_first_pass.
Defined.



(** ** No shape check *)






(** ** Signals of four samples *)

Lemma cis_PI2 : cis (PI / 2) = Ci.
Proof. unfold cis, Ci. rewrite cos_PI2, sin_PI2. reflexivity. Qed.

Lemma cis_quarter (j : nat) : cis (INR j * (PI / 2)) = quarter j.
Proof.
  induction j as [|j IH].
  - simpl. rewrite Rmult_0_l. apply cis_0.
  - rewrite S_INR. cbn [quarter]. rewrite <- IH, <- cis_PI2, <- cis_add.
    f_equal. ring.
Qed.

Lemma cis_neg (t : R) : cis (- t) = Cconj (cis t).
Proof. unfold cis, Cconj; simpl. rewrite cos_neg, sin_neg. reflexivity. Qed.

Lemma INR_4 : INR 4 = 4.
Proof. simpl. ring. Qed.

Lemma cis_idft4 (m k : nat) :
  cis (2 * PI * INR m * INR k / INR 4) = quarter (m * k).
Proof.
  rewrite <- cis_quarter, mult_INR, INR_4. f_equal. field.
Qed.

Lemma cis_dft4 (m k : nat) :
  cis (- (2 * PI * INR m * INR k / INR 4)) = Cconj (quarter (m * k)).
Proof. rewrite cis_neg, cis_idft4. reflexivity. Qed.

Lemma dft_4 (a b c d : C) :
  dft [a; b; c; d]
  = [ (a + b + c + d)%C;
      mkC (Re a + Im b - Re c - Im d) (Im a - Re b - Im c + Re d);
      (a - b + c - d)%C;
      mkC (Re a - Im b - Re c + Im d) (Im a + Re b - Im c - Re d) ].
Proof.
  unfold dft. cbn [length seq map Csum nth]. rewrite !cis_dft4.
  f_equal; [|f_equal; [|f_equal; [|f_equal]]]; Ceq.
Qed.

Lemma idft_4 (a b c d : C) :
  idft [a; b; c; d]
  = [ Cscal (1 / 4) (a + b + c + d)%C;
      Cscal (1 / 4)
        (mkC (Re a - Im b - Re c + Im d) (Im a + Re b - Im c - Re d));
      Cscal (1 / 4) (a - b + c - d)%C;
      Cscal (1 / 4)
        (mkC (Re a + Im b - Re c - Im d) (Im a - Re b - Im c + Re d)) ].
Proof.
  unfold idft. cbn [length seq map Csum nth]. rewrite !cis_idft4, INR_4.
  f_equal; [|f_equal; [|f_equal; [|f_equal]]]; Ceq.
Qed.

Lemma analytic_4 (x0 x1 x2 x3 : R) :
  analytic [x0; x1; x2; x3]
  = [ mkC x0 ((x3 - x1) / 2); mkC x1 ((x0 - x2) / 2);
      mkC x2 ((x1 - x3) / 2); mkC x3 ((x2 - x0) / 2) ].
Proof.
  unfold analytic. cbn [length map]. rewrite dft_4.
  cbn [seq map nth]. rewrite idft_4.
  unfold hilbert_h; simpl.
  f_equal; [|f_equal; [|f_equal; [|f_equal]]]; apply C_eq; simpl; field.
Qed.

Lemma cis_plus_2PI (t : R) : cis (t + 2 * PI) = cis t.
Proof. rewrite cis_add, cis_2PI. apply Cmul_1_r. Qed.

(** Modulus and angle give the number back (right half plane). *)
Lemma Cmod_cis_angle_pos (z : C) :
  0 < Re z -> Cscal (Cmod z) (cis (angle z)) = z.
Proof.
  destruct z as [x y]; cbn [Re]; intros Hx.
  unfold angle, arctan2, Cmod, cis, Cscal; cbn [Re Im].
  destruct (Rlt_dec 0 x) as [_|n]; [|contradiction].
  rewrite cos_atan, sin_atan.
  set (q := y / x). set (s := sqrt (1 + q²)).
  assert (Hs : 0 < s) by (apply sqrt_lt_R0; unfold Rsqr; nra).
  assert (E : sqrt (x * x + y * y) = x * s).
  { replace (x * x + y * y) with ((x * x) * (1 + q²))
      by (unfold q, Rsqr; field; lra).
    rewrite sqrt_mult by (unfold Rsqr; nra).
    rewrite sqrt_square by lra. reflexivity. }
  rewrite E. clearbody s. unfold q. f_equal; field; lra.
Qed.

Lemma Cmod_le_sq (a b : C) :
  Re a * Re a + Im a * Im a <= Re b * Re b + Im b * Im b ->
  Cmod a <= Cmod b.
Proof. intros H. apply sqrt_le_1_alt, H. Qed.

Lemma Cmod_lt_sq (a b : C) :
  Re a * Re a + Im a * Im a < Re b * Re b + Im b * Im b ->
  Cmod a < Cmod b.
Proof. intros H. apply sqrt_lt_1_alt. split; [nra | exact H]. Qed.

Lemma argmax_from_stay (t : list R) (i best : nat) (bv : R) :
  Forall (fun b => b <= bv) t -> argmax_from t i best bv = best.
Proof.
  revert i. induction t as [|x t IH]; intros i H; [reflexivity|].
  inversion H; subst. cbn [argmax_from].
  destruct (Rlt_dec bv x); [lra | apply IH; assumption].
Qed.

Lemma argmax_head (x : R) (t : list R) :
  Forall (fun b => b <= x) t -> argmax (x :: t) = Done 0%nat.
Proof. intros H. cbn [argmax]. rewrite argmax_from_stay by exact H. reflexivity. Qed.

Lemma argmax_second (x y : R) (t : list R) :
  x < y -> Forall (fun b => b <= y) t -> argmax (x :: y :: t) = Done 1%nat.
Proof.
  intros Hxy H. cbn [argmax argmax_from].
  destruct (Rlt_dec x y); [|contradiction].
  rewrite argmax_from_stay by exact H. reflexivity.
Qed.

(** One pass on four-sample arrays, with the values it computes named. *)
Lemma loop_body_4 (X0 X1 X2 X3 : C) (f0 f1 f2 f3 : R) (oh : list C) (oi : nat)
    (dt : R) (r0 r1 r2 r3 : C) (a am : R) (la ld lp : list R)
    (lc : list (list C)) (rh : list C) (i : nat) (amp delay phase : R)
    (h0 h1 h2 : C) :
  pass_hilbert [r0; r1; r2; r3] = rh ->
  argmax (map Cmod rh) = Done i ->
  amp = Cmod (nth i rh C0) ->
  delay = IZR (Z.of_nat i - Z.of_nat oi) * dt ->
  phase = angle (nth i rh C0) - angle (nth oi oh C0) + 2 * PI ->
  h0 = (Cscal amp X0 * cis (- (2 * PI * f0 * delay) + phase))%C ->
  h1 = (Cscal amp X1 * cis (- (2 * PI * f1 * delay) + phase))%C ->
  h2 = (Cscal amp X2 * cis (- (2 * PI * f2 * delay) + phase))%C ->
  loop_body (mkReference [X0; X1; X2; X3] [f0; f1; f2; f3] oh oi) dt
    (mkState [r0; r1; r2; r3] a am la ld lp lc)
  = Done (mkState [(r0 - h0)%C; (r1 - h1)%C; (r2 - h2)%C; (r3 - Cconj h1)%C]
            amp (if (length (la ++ [amp]) =? 1)%nat then amp else am)
            (la ++ [amp]) (ld ++ [delay]) (lp ++ [phase])
            (lc ++ [idft [h0; h1; h2; Cconj h1]])).
Proof.
  intros Hrh Hi Ha Hd Hp H0 H1 H2.
  assert (E : reconstruct (mkReference [X0; X1; X2; X3] [f0; f1; f2; f3] oh oi)
                (spec_half [X0; X1; X2; X3] [f0; f1; f2; f3] amp delay phase)
              = [h0; h1; h2; Cconj h1]).
  { unfold reconstruct, spec_half, spec_boundary; simpl.
    rewrite <- H0, <- H1, <- H2. reflexivity. }
  rewrite (loop_body_eval _ dt _ i
             [(r0 - h0)%C; (r1 - h1)%C; (r2 - h2)%C; (r3 - Cconj h1)%C]);
    cbn [residue original_spectrum omega original_hilbert original_argpeak
         amplitudes delays phases components amp_max length];
    rewrite ?Hrh; try rewrite <- Ha; try rewrite <- Hd; try rewrite <- Hp;
    try rewrite E; try discriminate; try lia; try reflexivity; try assumption.
Qed.

Lemma Cmod_lower (c : R) (z : C) :
  0 <= c -> c * c <= Re z * Re z + Im z * Im z -> c <= Cmod z.
Proof.
  intros Hc H. rewrite <- (sqrt_square c) by exact Hc.
  apply sqrt_le_1_alt, H.
Qed.

Lemma Cscal_C1_rotate (a : R) (X w : C) :
  X = C1 -> (Cscal a X * w)%C = Cscal a w.
Proof. intros ->. Ceq. Qed.

Ltac list4 tac := f_equal; [|f_equal; [|f_equal; [|f_equal]]]; tac.

Ltac all_below :=
  repeat (apply Forall_cons; [apply Cmod_le_sq; simpl; lra|]);
  apply Forall_nil.

(** The run on [measured = [2, 1, 0, 0]], [original = [1, 0, 0, 0]],
    [delta_t = 1], [threshold = 0.4]: two passes; the component of the
    first pass is returned and is not real. *)
Lemma skewed_run :
  extract_CLEAN 2 [2; 1; 0; 0] [1; 0; 0; 0] 1 (2 / 5)
  = Done (mkResult [Cmod (mkC 2 (- (1 / 2)))] [0]
            [angle (mkC 2 (- (1 / 2))) + 2 * PI]
            [[mkC 2 (- (1 / 4)); mkC (1 / 4) 0;
              mkC 0 (- (1 / 4)); mkC (- (1 / 4)) 0]]).
Proof.
  unfold extract_CLEAN, extract_CLEAN_run.
  destruct (prepare_Done [2; 1; 0; 0] [1; 0; 0; 0] 1) as [i [Hi Hp]];
    try discriminate; try lra.
  rewrite analytic_4 in Hi, Hp.
  cbn [map] in Hi. rewrite argmax_head in Hi
    by all_below.
  inversion Hi; subst i. clear Hi.
  rewrite Hp. clear Hp. cbn [bind fst snd map length].
  rewrite !dft_4.
  change (fftfreq_bins 4) with [0; 1; -2; -1]%Z. cbn [map].
  rewrite loop_sentinels_enter by lra.
  set (z := mkC 2 (- (1 / 2))).
  assert (Hz : 0 < Cmod z) by (apply sqrt_lt_R0; simpl; lra).
  assert (Hz' : 15 / 8 <= Cmod z) by (apply Cmod_lower; simpl; lra).
  rewrite loop_body_4
    with (rh := [z; mkC 1 1; mkC 0 (1 / 2); mkC 0 (- 1)]) (i := 0%nat)
         (amp := Cmod z) (delay := 0) (phase := angle z + 2 * PI)
         (h0 := z) (h1 := z) (h2 := z).
  - cbn [bind app length Nat.eqb].
    rewrite loop_step by (cbn [amplitude amp_max]; lra).
    erewrite loop_body_4
      with (rh := [mkC 0 (- (1 / 4)); mkC (3 / 4) 0; mkC 0 (1 / 4);
                   mkC (1 / 4) 0])
           (i := 1%nat) (amp := 3 / 4).
    + cbn [bind app length Nat.eqb].
      rewrite loop_stop by (cbn [amplitude amp_max]; lra).
      cbn [bind snd]. unfold returned, drop_last.
      cbn [amplitudes delays phases components removelast].
      do 2 f_equal. rewrite idft_4. f_equal.
      list4 ltac:(apply C_eq; simpl; field).
    + unfold pass_hilbert. rewrite idft_4. cbn [map]. rewrite analytic_4.
      list4 ltac:(apply C_eq; simpl; field).
    + cbn [map]. apply argmax_second.
      * apply Cmod_lt_sq; simpl; lra.
      * all_below.
    + cbn [nth]. symmetry. change (mkC (3 / 4) 0) with (RtoC (3 / 4)).
      apply Cmod_RtoC. lra.
    + reflexivity.
    + reflexivity.
    + reflexivity.
    + reflexivity.
    + reflexivity.
  - unfold pass_hilbert. rewrite idft_4. cbn [map]. rewrite analytic_4.
    list4 ltac:(apply C_eq; simpl; field).
  - cbn [map]. apply argmax_head. all_below.
  - reflexivity.
  - simpl. ring.
  - cbn [nth]. replace ((0 - 0) / 2) with 0 by field.
    change (mkC 1 0) with (RtoC 1). rewrite angle_pos_real by lra. ring.
  - replace (- (2 * PI * (IZR 0 * (1 / (INR 4 * 1))) * 0) + (angle z + 2 * PI))
      with (angle z + 2 * PI) by ring.
    rewrite cis_plus_2PI, Cscal_C1_rotate by Ceq.
    symmetry. apply Cmod_cis_angle_pos. simpl. lra.
  - replace (- (2 * PI * (IZR 1 * (1 / (INR 4 * 1))) * 0) + (angle z + 2 * PI))
      with (angle z + 2 * PI) by ring.
    rewrite cis_plus_2PI, Cscal_C1_rotate by Ceq.
    symmetry. apply Cmod_cis_angle_pos. simpl. lra.
  - replace (- (2 * PI * (IZR (-2) * (1 / (INR 4 * 1))) * 0)
             + (angle z + 2 * PI))
      with (angle z + 2 * PI) by ring.
    rewrite cis_plus_2PI, Cscal_C1_rotate by Ceq.
    symmetry. apply Cmod_cis_angle_pos. simpl. lra.
Qed.

(** The first pass of that run: the residue it leaves has an inverse
    transform with imaginary parts of [1/4], which the next pass drops when
    it takes [r_t.real]. *)
Lemma skewed_first_pass :
  exists ref st0 st1,
    prepare [2; 1; 0; 0] [1; 0; 0; 0] 1 = Done (ref, st0) /\
    loop_body ref 1 st0 = Done st1 /\
    idft (residue st1)
    = [mkC 0 (1 / 4); mkC (3 / 4) 0; mkC 0 (1 / 4); mkC (1 / 4) 0].
Proof.
  destruct (prepare_Done [2; 1; 0; 0] [1; 0; 0; 0] 1) as [i [Hi Hp]];
    try discriminate; try lra.
  rewrite analytic_4 in Hi, Hp.
  cbn [map] in Hi. rewrite argmax_head in Hi by all_below.
  inversion Hi; subst i. clear Hi.
  cbn [map length] in Hp. rewrite !dft_4 in Hp.
  change (fftfreq_bins 4) with [0; 1; -2; -1]%Z in Hp. cbn [map] in Hp.
  set (z := mkC 2 (- (1 / 2))).
  assert (Hz : 0 < Cmod z) by (apply sqrt_lt_R0; simpl; lra).
  do 3 eexists. split; [exact Hp|]. split.
  - apply loop_body_4
      with (rh := [z; mkC 1 1; mkC 0 (1 / 2); mkC 0 (- 1)]) (i := 0%nat)
           (amp := Cmod z) (delay := 0) (phase := angle z + 2 * PI)
           (h0 := z) (h1 := z) (h2 := z).
    + unfold pass_hilbert. rewrite idft_4. cbn [map]. rewrite analytic_4.
      list4 ltac:(apply C_eq; simpl; field).
    + cbn [map]. apply argmax_head. all_below.
    + reflexivity.
    + simpl. ring.
    + cbn [nth]. replace ((0 - 0) / 2) with 0 by field.
      change (mkC 1 0) with (RtoC 1). rewrite angle_pos_real by lra. ring.
    + replace (- (2 * PI * (IZR 0 * (1 / (INR 4 * 1))) * 0)
               + (angle z + 2 * PI))
        with (angle z + 2 * PI) by ring.
      rewrite cis_plus_2PI, Cscal_C1_rotate by Ceq.
      symmetry. apply Cmod_cis_angle_pos. simpl. lra.
    + replace (- (2 * PI * (IZR 1 * (1 / (INR 4 * 1))) * 0)
               + (angle z + 2 * PI))
        with (angle z + 2 * PI) by ring.
      rewrite cis_plus_2PI, Cscal_C1_rotate by Ceq.
      symmetry. apply Cmod_cis_angle_pos. simpl. lra.
    + replace (- (2 * PI * (IZR (-2) * (1 / (INR 4 * 1))) * 0)
               + (angle z + 2 * PI))
        with (angle z + 2 * PI) by ring.
      rewrite cis_plus_2PI, Cscal_C1_rotate by Ceq.
      symmetry. apply Cmod_cis_angle_pos. simpl. lra.
  - cbn [residue]. rewrite idft_4.
    list4 ltac:(apply C_eq; simpl; field).
Qed.

(** C6 fails on the program.  On [measured = [2, 1, 0, 0]],
    [original = [1, 0, 0, 0]], [delta_t = 1], [threshold = 0.4] -- signals
    of equal, even length -- the call returns one component,
    [[2 - i/4, 1/4, -i/4, -1/4]], which is not real-valued: the DC and
    Nyquist bins of the reconstructed spectrum are rotated by the phase
    like every other bin, so the spectrum is not Hermitian.  The residue
    of that pass then has the inverse transform [[i/4, 3/4, i/4, 1/4]],
    whose imaginary part is no numerical noise. *)
Theorem C6_component_not_real :
  (exists r c,
     extract_CLEAN 2 [2; 1; 0; 0] [1; 0; 0; 0] 1 (2 / 5) = Done r /\
     out_components r = [c] /\
     c = [mkC 2 (- (1 / 4)); mkC (1 / 4) 0;
          mkC 0 (- (1 / 4)); mkC (- (1 / 4)) 0] /\
     ~ real_valued c) /\
  (exists ref st0 st1,
     prepare [2; 1; 0; 0] [1; 0; 0; 0] 1 = Done (ref, st0) /\
     loop_body ref 1 st0 = Done st1 /\
     ~ real_valued (idft (residue st1))).
Proof.
  split.
  - eexists. eexists. split; [exact skewed_run|].
    split; [reflexivity|]. split; [reflexivity|].
    intros H. inversion H as [|z l Hz _]. simpl in Hz. lra.
  - destruct skewed_first_pass as (ref & st0 & st1 & Hp & Hb & Hr).
    exists ref, st0, st1. split; [exact Hp|]. split; [exact Hb|].
    rewrite Hr. intros H. inversion H as [|z l Hz _]. simpl in Hz. lra.
Qed.

(** ** Hermitian spectra *)

Lemma Cconj_involutive (z : C) : Cconj (Cconj z) = z.
Proof. Ceq. Qed.

(** A spectrum with a real DC bin whose bin [L - k] is the conjugate of
    bin [k] has a real inverse transform. *)
Lemma idft_hermitian_real (a : list C) (n : nat) :
  (n < length a)%nat ->
  Im (nth 0 a C0) = 0 ->
  (forall k, (1 <= k)%nat -> (k < length a)%nat ->
     nth (length a - k) a C0 = Cconj (nth k a C0)) ->
  Im (nth n (idft a) C0) = 0.
Proof.
  intros Hn H0 Hsym. set (L := length a) in *.
  assert (HL : INR L <> 0) by (apply not_0_INR; lia).
  rewrite nth_idft by exact Hn. fold L. cbn [Im Cscal].
  rewrite Im_Csum, Rsum_antisymmetric; [ring | |].
  - replace (2 * PI * INR n * INR 0 / INR L) with 0 by (simpl; field; exact HL).
    cbn [Im Re Cmul cis]. rewrite sin_0, cos_0, H0. ring.
  - intros k Hk HkL. rewrite Hsym by assumption.
    rewrite minus_INR by lia.
    replace (2 * PI * INR n * (INR L - INR k) / INR L)
      with (2 * PI * (INR n - INR 0) - 2 * PI * INR n * INR k / INR L)
      by (simpl; field; exact HL).
    cbn [Im Re Cmul Cconj cis]. rewrite cos_whole_turns, sin_whole_turns. ring.
Qed.

(** ** The reconstructed spectrum is Hermitian away from DC and Nyquist *)

Lemma nth_tl {A : Type} (l : list A) (i : nat) (d : A) :
  nth i (tl l) d = nth (S i) l d.
Proof. destruct l; [destruct i; reflexivity | reflexivity]. Qed.

Lemma nth_removelast {A : Type} (l : list A) (i : nat) (d : A) :
  (i < length l - 1)%nat -> nth i (removelast l) d = nth i l d.
Proof.
  intros H. rewrite removelast_firstn_len.
  rewrite nth_firstn. destruct (Nat.ltb_spec i (Nat.pred (length l))); [reflexivity | lia].
Qed.

Lemma nth_map_Cconj (i : nat) (l : list C) :
  nth i (map Cconj l) C0 = Cconj (nth i l C0).
Proof.
  replace C0 with (Cconj C0) at 1 by Ceq. apply map_nth.
Qed.

(** The entries of a reconstructed spectrum: the half itself, then its
    mirror image. *)
Lemma nth_reconstruct (ref : reference) (half : list C) (k : nat) :
  let L := length (original_spectrum ref) in
  (1 <= L)%nat -> length half = spec_boundary L -> (k < L)%nat ->
  nth k (reconstruct ref half) C0
  = if (k <? spec_boundary L)%nat then nth k half C0
    else Cconj (nth (L - k) half C0).
Proof.
  intros L HL Hh Hk. rewrite reconstruct_spec. fold L.
  destruct (Nat.ltb_spec k (spec_boundary L)) as [Hlt|Hge].
  - apply app_nth1. lia.
  - rewrite app_nth2 by lia. rewrite Hh.
    unfold spec_mirror. revert Hh Hge. unfold spec_boundary.
    destruct (Nat.even L) eqn:E; intros Hh Hge.
    + apply Nat.even_spec in E. destruct E as [q E].
      rewrite rev_nth;
        rewrite length_map, length_removelast, length_tl; [|lia].
      rewrite nth_map_Cconj, nth_removelast by (rewrite length_tl; lia).
      rewrite nth_tl. do 2 f_equal. lia.
    + apply (f_equal negb) in E. rewrite Nat.negb_even in E.
      apply Nat.odd_spec in E. destruct E as [q E].
      rewrite rev_nth; rewrite length_map, length_tl; [|lia].
      rewrite nth_map_Cconj, nth_tl. do 2 f_equal. lia.
Qed.

Lemma nth_spec_half (X : list C) (f : list R) (a d p : R) (k : nat) :
  (k < spec_boundary (length X))%nat ->
  nth k (spec_half X f a d p) C0
  = (Cscal a (nth k X C0) * cis (- (2 * PI * nth k f 0 * d) + p))%C.
Proof.
  intros Hk. unfold spec_half. rewrite nth_map_seq by exact Hk. reflexivity.
Qed.

Lemma Cscal_C0_mul (a : R) (w : C) : (Cscal a C0 * w)%C = C0.
Proof. Ceq. Qed.

Lemma reconstruct_hermitian (ref : reference) (a d p : R) :
  let L := length (original_spectrum ref) in
  let rec := reconstruct ref
               (spec_half (original_spectrum ref) (omega ref) a d p) in
  (1 <= L)%nat -> no_dc_nyquist (original_spectrum ref) ->
  Im (nth 0 rec C0) = 0 /\
  (forall k, (1 <= k)%nat -> (k < L)%nat ->
     nth (L - k) rec C0 = Cconj (nth k rec C0)).
Proof.
  intros L rec HL [Hdc Hny]. fold L in Hny.
  pose proof (spec_boundary_pos L HL) as Hb1.
  pose proof (spec_boundary_le L HL) as Hb2.
  assert (Hlen : length (spec_half (original_spectrum ref) (omega ref) a d p)
                 = spec_boundary L) by apply length_spec_half.
  split.
  - unfold rec. rewrite nth_reconstruct by (fold L; (assumption || lia)).
    fold L. destruct (Nat.ltb_spec 0 (spec_boundary L)); [|lia].
    rewrite nth_spec_half by (fold L; lia).
    rewrite Hdc, Cscal_C0_mul. reflexivity.
  - intros k Hk HkL. unfold rec.
    rewrite !nth_reconstruct by (fold L; (assumption || lia)). fold L.
    destruct (Nat.ltb_spec (L - k) (spec_boundary L)) as [H1|H1];
      destruct (Nat.ltb_spec k (spec_boundary L)) as [H2|H2].
    + (* both in the half: the Nyquist bin of an even length *)
      revert H1 H2 Hny. unfold spec_boundary.
      destruct (Nat.even L) eqn:E; intros H1 H2 Hny.
      * apply Nat.even_spec in E. destruct E as [q E].
        assert (Hq : k = (L / 2)%nat) by lia.
        replace (L - k)%nat with k by lia.
        rewrite nth_spec_half
          by (fold L; unfold spec_boundary;
              replace (Nat.even L) with true
                by (symmetry; apply Nat.even_spec; exists q; exact E); lia).
        rewrite Hq, Hny by reflexivity. rewrite Cscal_C0_mul. Ceq.
      * apply (f_equal negb) in E. rewrite Nat.negb_even in E.
        apply Nat.odd_spec in E. destruct E as [q E]. lia.
    + rewrite Cconj_involutive. reflexivity.
    + do 2 f_equal. lia.
    + exfalso. revert H1 H2. unfold spec_boundary.
      destruct (Nat.even L) eqn:E; intros H1 H2.
      * apply Nat.even_spec in E. destruct E as [q E]. lia.
      * apply (f_equal negb) in E. rewrite Nat.negb_even in E.
        apply Nat.odd_spec in E. destruct E as [q E]. lia.
Qed.

Lemma component_real_valued (ref : reference) (a d p : R) :
  (1 <= length (original_spectrum ref))%nat ->
  no_dc_nyquist (original_spectrum ref) ->
  real_valued
    (idft (reconstruct ref
             (spec_half (original_spectrum ref) (omega ref) a d p))).
Proof.
  intros HL Hno. unfold real_valued. apply Forall_forall. intros z Hz.
  apply (In_nth _ _ C0) in Hz. destruct Hz as (n & Hn & <-).
  rewrite length_idft in Hn.
  destruct (reconstruct_hermitian ref a d p HL Hno) as [H0 Hsym].
  assert (Hlen : length (reconstruct ref
                   (spec_half (original_spectrum ref) (omega ref) a d p))
                 = length (original_spectrum ref)).
  { apply length_reconstruct; [exact HL | apply length_spec_half]. }
  apply idft_hermitian_real; [exact Hn | exact H0 |].
  rewrite Hlen. exact Hsym.
Qed.

(** ** Components of a run *)

Lemma fftfreq_Done_inv (n : nat) (d : R) (w : list R) :
  fftfreq n d = Done w -> (1 <= n)%nat -> length w = n.
Proof.
  unfold fftfreq. destruct (Req_dec_T (INR n * d) 0); [discriminate|].
  intros H Hn. inversion H. rewrite length_map. apply length_fftfreq_bins, Hn.
Qed.

Lemma prepare_Done_inv (m o : list R) (dt : R) (ref : reference) (st0 : state) :
  prepare m o dt = Done (ref, st0) ->
  m <> [] /\ o <> [] /\
  original_spectrum ref = dft (map RtoC o) /\
  length (omega ref) = length o /\
  original_hilbert ref = analytic o /\
  st0 = mkState (dft (map RtoC m)) 1 2 [] [] [] [].
Proof.
  unfold prepare. intros H.
  apply bind_Done in H. destruct H as [os [Hos H]].
  apply bind_Done in H. destruct H as [ms [Hms H]].
  apply bind_Done in H. destruct H as [w [Hw H]].
  apply bind_Done in H. destruct H as [oh [Hoh H]].
  apply bind_Done in H. destruct H as [oi [_ H]].
  inversion H; subst. clear H.
  apply hilbert_Done_inv in Hoh. destruct Hoh as [Ho ->].
  assert (Hm : m <> []) by (destruct m; simpl in Hms; congruence).
  rewrite fft_Done in Hos, Hms
    by (rewrite <- length_nonnil, length_map, length_nonnil; assumption).
  inversion Hos. inversion Hms.
  apply fftfreq_Done_inv in Hw; [|apply length_nonnil in Ho; lia].
  repeat split; try assumption; reflexivity.
Qed.

Lemma loop_body_components_real (ref : reference) (dt : R) (st st' : state) :
  (1 <= length (original_spectrum ref))%nat ->
  length (omega ref) = length (original_spectrum ref) ->
  no_dc_nyquist (original_spectrum ref) ->
  loop_body ref dt st = Done st' ->
  Forall real_valued (components st) ->
  Forall real_valued (components st').
Proof.
  intros HL Hw Hno H Hall. apply loop_body_Done_inv in H.
  destruct H as (i & cs & res' & _ & _ & Hcs & _ & _ & ->).
  cbn [components]. apply Forall_app. split; [exact Hall|].
  constructor; [|constructor].
  rewrite component_spectrum_of_spec in Hcs by assumption.
  inversion Hcs. apply component_real_valued; assumption.
Qed.

Lemma loop_components_real (ref : reference) (dt t : R) (fuel : nat) :
  (1 <= length (original_spectrum ref))%nat ->
  length (omega ref) = length (original_spectrum ref) ->
  no_dc_nyquist (original_spectrum ref) ->
  forall (k : nat) (st : state) (k' : nat) (st' : state),
    loop ref dt t fuel k st = Done (k', st') ->
    Forall real_valued (components st) ->
    Forall real_valued (components st').
Proof.
  intros HL Hw Hno.
  induction fuel as [|fuel IH]; intros k st k' st' H Hall; simpl in H;
    destruct (Rgt_dec (amplitude st) (t * amp_max st)) as [Hgt|Hle];
    try discriminate;
    try (inversion H; subst; exact Hall).
  apply bind_Done in H. destruct H as [st1 [Hb Hl]].
  eapply IH; [exact Hl|].
  eapply loop_body_components_real; eassumption.
Qed.

Lemma In_removelast {A : Type} (x : A) (l : list A) :
  In x (removelast l) -> In x l.
Proof.
  rewrite removelast_firstn_len. intros H.
  rewrite <- (firstn_skipn (Nat.pred (length l)) l).
  apply in_or_app. left. exact H.
Qed.

(** X17: in exact arithmetic, when the reference spectrum has no DC
    content and, for an even length, no Nyquist content, every component
    returned -- for an even or an odd signal length -- has zero imaginary
    part: the rotation by the phase then leaves the reconstructed spectrum
    Hermitian. *)
Theorem X17_real_components_without_dc_nyquist (fuel : nat) (m o : list R)
    (dt t : R) (r : result) :
  extract_CLEAN fuel m o dt t = Done r ->
  no_dc_nyquist (dft (map RtoC o)) ->
  forall c, In c (out_components r) -> real_valued c.
Proof.
  unfold extract_CLEAN, extract_CLEAN_run. intros H Hno c Hc.
  apply bind_Done in H. destruct H as [[k st] [Hrun H]].
  inversion H; subst r. clear H.
  apply bind_Done in Hrun. destruct Hrun as [[ref st0] [Hp Hl]].
  apply prepare_Done_inv in Hp.
  destruct Hp as (Hm & Ho & HX & Hw & _ & ->).
  cbn [fst snd] in Hl.
  assert (HL : (1 <= length (original_spectrum ref))%nat).
  { rewrite HX, length_dft, length_map. apply length_nonnil in Ho. lia. }
  assert (Hall : Forall real_valued (components st)).
  { eapply loop_components_real; try exact Hl.
    - exact HL.
    - rewrite Hw, HX, length_dft, length_map. reflexivity.
    - rewrite HX. exact Hno.
    - constructor. }
  cbn [snd returned out_components drop_last] in Hc.
  apply In_removelast in Hc.
  rewrite Forall_forall in Hall. apply Hall, Hc.
Qed.

(** The run on [measured = original = [1, 0, -1, 0]], [delta_t = 1],
    [threshold = 0.4]: a reference without DC or Nyquist content; two
    passes, one component returned, the signal itself. *)
Lemma balanced_run :
  extract_CLEAN 2 [1; 0; -1; 0] [1; 0; -1; 0] 1 (2 / 5)
  = Done (mkResult [1] [0] [2 * PI]
            [[mkC 1 0; mkC 0 0; mkC (- 1) 0; mkC 0 0]]).
Proof.
  unfold extract_CLEAN, extract_CLEAN_run.
  destruct (prepare_Done [1; 0; -1; 0] [1; 0; -1; 0] 1) as [i [Hi Hp]];
    try discriminate; try lra.
  rewrite analytic_4 in Hi, Hp.
  cbn [map] in Hi. rewrite argmax_head in Hi by all_below.
  inversion Hi; subst i. clear Hi.
  rewrite Hp. clear Hp. cbn [bind fst snd map length].
  rewrite !dft_4.
  change (fftfreq_bins 4) with [0; 1; -2; -1]%Z. cbn [map].
  rewrite loop_sentinels_enter by lra.
  rewrite loop_body_4
    with (rh := [mkC 1 0; mkC 0 1; mkC (- 1) 0; mkC 0 (- 1)]) (i := 0%nat)
         (amp := 1) (delay := 0) (phase := 2 * PI)
         (h0 := C0) (h1 := mkC 2 0) (h2 := C0).
  - cbn [bind app length Nat.eqb].
    rewrite loop_step by (cbn [amplitude amp_max]; lra).
    erewrite loop_body_4
      with (rh := [mkC 0 0; mkC 0 0; mkC 0 0; mkC 0 0])
           (i := 0%nat) (amp := 0).
    + cbn [bind app length Nat.eqb].
      rewrite loop_stop by (cbn [amplitude amp_max]; lra).
      cbn [bind snd]. unfold returned, drop_last.
      cbn [amplitudes delays phases components removelast].
      do 2 f_equal. rewrite idft_4. f_equal.
      list4 ltac:(apply C_eq; simpl; field).
    + unfold pass_hilbert. rewrite idft_4. cbn [map]. rewrite analytic_4.
      list4 ltac:(apply C_eq; simpl; field).
    + cbn [map]. apply argmax_head. all_below.
    + cbn [nth]. symmetry. apply Cmod_C0.
    + reflexivity.
    + reflexivity.
    + reflexivity.
    + reflexivity.
    + reflexivity.
  - unfold pass_hilbert. rewrite idft_4. cbn [map]. rewrite analytic_4.
    list4 ltac:(apply C_eq; simpl; field).
  - cbn [map]. apply argmax_head. all_below.
  - cbn [nth]. symmetry. change (mkC 1 0) with (RtoC 1).
    apply Cmod_RtoC. lra.
  - simpl. ring.
  - cbn [nth]. replace ((0 - 0) / 2) with 0 by field.
    change (mkC 1 0) with (RtoC 1). rewrite angle_pos_real by lra. ring.
  - replace (- (2 * PI * (IZR 0 * (1 / (INR 4 * 1))) * 0) + 2 * PI)
      with (2 * PI) by ring.
    rewrite cis_2PI. Ceq.
  - replace (- (2 * PI * (IZR 1 * (1 / (INR 4 * 1))) * 0) + 2 * PI)
      with (2 * PI) by ring.
    rewrite cis_2PI. Ceq.
  - replace (- (2 * PI * (IZR (-2) * (1 / (INR 4 * 1))) * 0) + 2 * PI)
      with (2 * PI) by ring.
    rewrite cis_2PI. Ceq.
Qed.

Lemma X17_real_components_without_dc_nyquist_witness :
  real_valued [mkC 1 0; mkC 0 0; mkC (- 1) 0; mkC 0 0].
Proof.
  apply (X17_real_components_without_dc_nyquist 2 [1; 0; -1; 0] [1; 0; -1; 0]
           1 (2 / 5)
           (mkResult [1] [0] [2 * PI]
              [[mkC 1 0; mkC 0 0; mkC (- 1) 0; mkC 0 0]])).
  - exact balanced_run.
  - cbn [map]. rewrite dft_4. split.
    + cbn [nth]. Ceq.
    + intros _. cbn [length Nat.div Nat.divmod fst nth]. Ceq.
  - left. reflexivity.
Defined.

(** * Further properties of [extract_CLEAN] *)

(** ** Invariants of the loop, in general *)

(** What holds before the loop and is kept by every pass made (a pass is
    only made when the loop test holds) holds when the loop stops. *)
Lemma loop_invariant (ref : reference) (dt t : R) (P : state -> Prop) :
  (forall st st', P st -> amplitude st > t * amp_max st ->
                  loop_body ref dt st = Done st' -> P st') ->
  forall (fuel k : nat) (st : state) (k' : nat) (st' : state),
    loop ref dt t fuel k st = Done (k', st') -> P st -> P st'.
Proof.
  intros Hstep. induction fuel as [|fuel IH]; intros k st k' st' H HP;
    simpl in H;
    destruct (Rgt_dec (amplitude st) (t * amp_max st)) as [Hgt|Hle];
    try discriminate;
    try (inversion H; subst; exact HP).
  apply bind_Done in H. destruct H as [st1 [Hb Hl]].
  eapply IH; [exact Hl|]. eapply Hstep; eassumption.
Qed.

(** When every pass from a state satisfying [P] succeeds and keeps [P], the
    loop raises nothing. *)
Lemma loop_never_raises (ref : reference) (dt t : R) (P : state -> Prop) :
  (forall st, P st -> exists st', loop_body ref dt st = Done st' /\ P st') ->
  forall (fuel k : nat) (st : state) (e : exn),
    P st -> loop ref dt t fuel k st <> Raised e.
Proof.
  intros Hstep. induction fuel as [|fuel IH]; intros k st e HP; simpl;
    destruct (Rgt_dec (amplitude st) (t * amp_max st)) as [Hgt|Hle];
    try discriminate.
  destruct (Hstep st HP) as [st1 [Hb HP1]]. rewrite Hb. cbn [bind].
  apply IH, HP1.
Qed.

Lemma run_Done_inv (fuel : nat) (m o : list R) (dt t : R) (k : nat)
    (st : state) :
  extract_CLEAN_run fuel m o dt t = Done (k, st) ->
  exists ref,
    prepare m o dt
    = Done (ref, mkState (dft (map RtoC m)) 1 2 [] [] [] []) /\
    loop ref dt t fuel 0 (mkState (dft (map RtoC m)) 1 2 [] [] [] [])
    = Done (k, st) /\
    m <> [] /\ o <> [] /\
    original_spectrum ref = dft (map RtoC o) /\
    length (omega ref) = length o /\
    original_hilbert ref = analytic o /\
    argmax (map Cmod (analytic o)) = Done (original_argpeak ref).
Proof.
  unfold extract_CLEAN_run. intros H.
  apply bind_Done in H. destruct H as [[ref st0] [Hp Hl]].
  cbn [fst snd] in Hl.
  pose proof (prepare_Done_inv _ _ _ _ _ Hp) as (Hm & Ho & HX & Hw & Hh & ->).
  exists ref. repeat split; try assumption.
  unfold prepare in Hp.
  rewrite (fft_Done (map RtoC o)), (fft_Done (map RtoC m)) in Hp
    by (rewrite <- length_nonnil, length_map, length_nonnil; assumption).
  cbn [bind] in Hp.
  destruct (fftfreq (length o) dt) as [w|e|]; cbn [bind] in Hp;
    try discriminate.
  rewrite hilbert_Done in Hp by exact Ho. cbn [bind] in Hp.
  destruct (argmax (map Cmod (analytic o))) as [i|e|]; cbn [bind] in Hp;
    try discriminate.
  inversion Hp. reflexivity.
Qed.

Lemma result_Done_inv (fuel : nat) (m o : list R) (dt t : R) (r : result) :
  extract_CLEAN fuel m o dt t = Done r ->
  exists k st,
    extract_CLEAN_run fuel m o dt t = Done (k, st) /\ r = returned st.
Proof.
  unfold extract_CLEAN. intros H.
  apply bind_Done in H. destruct H as [[k st] [Hrun H]].
  inversion H. exists k, st. split; [exact Hrun | reflexivity].
Qed.

(** ** The four returned arrays are parallel *)

(** X1: whenever [extract_CLEAN] returns, its four arrays have the same
    number of entries. *)
Theorem X1_outputs_parallel (fuel : nat) (m o : list R) (dt t : R)
    (r : result) :
  extract_CLEAN fuel m o dt t = Done r ->
  length (out_delays r) = length (out_amplitudes r) /\
  length (out_phases r) = length (out_amplitudes r) /\
  length (out_components r) = length (out_amplitudes r).
Proof.
  intros H. apply result_Done_inv in H. destruct H as (k & st & Hrun & ->).
  destruct (run_accumulated _ _ _ _ _ _ _ Hrun)
    as [(Ha & Hd & Hp & Hc & _) _].
  unfold returned, drop_last;
    cbn [out_amplitudes out_delays out_phases out_components].
  rewrite !length_removelast, Ha, Hd, Hp, Hc. repeat split; reflexivity.
Qed.

Lemma X1_outputs_parallel_witness :
  length (out_delays (mkResult [1] [0] [2 * PI] [[C1]]))
  = length (out_amplitudes (mkResult [1] [0] [2 * PI] [[C1]])) /\
  length (out_phases (mkResult [1] [0] [2 * PI] [[C1]]))
  = length (out_amplitudes (mkResult [1] [0] [2 * PI] [[C1]])) /\
  length (out_components (mkResult [1] [0] [2 * PI] [[C1]]))
  = length (out_amplitudes (mkResult [1] [0] [2 * PI] [[C1]])).
Proof.
  apply (X1_outputs_parallel 2 [1] [1] 1 (2 / 5)). exact unit_result.
Defined.

(** ** The error raised for an empty signal *)

Lemma broadcast2_Raised_inv {A B D : Type} (f : A -> B -> D) (a : list A)
    (b : list B) (e : exn) :
  broadcast2 f a b = Raised e -> e = ValueError_broadcast.
Proof.
  unfold broadcast2.
  destruct (Nat.eq_dec (length a) (length b)); [discriminate|].
  destruct a as [|x [|x' a]]; destruct b as [|y [|y' b]];
    intros H; inversion H; reflexivity.
Qed.

Lemma broadcast2_nonnil {A B D : Type} (f : A -> B -> D) (a : list A)
    (b : list B) (r : list D) :
  broadcast2 f a b = Done r -> a <> [] -> b <> [] -> r <> [].
Proof.
  unfold broadcast2. intros H Ha Hb.
  destruct (Nat.eq_dec (length a) (length b)) as [E|E].
  - inversion H. rewrite <- length_nonnil, length_map, length_combine, <- E,
      Nat.min_id. apply length_nonnil, Ha.
  - destruct a as [|x [|x' a]]; destruct b as [|y [|y' b]];
      try congruence; inversion H; discriminate.
Qed.

(** The only exception a pass can raise on a residue that is not empty is
    the broadcasting error of [residue - reconstructed]. *)
Lemma loop_body_Raised_inv (ref : reference) (dt : R) (st : state) (e : exn) :
  residue st <> [] ->
  (1 <= length (original_spectrum ref))%nat ->
  length (omega ref) = length (original_spectrum ref) ->
  loop_body ref dt st = Raised e -> e = ValueError_broadcast.
Proof.
  intros Hres HL Hw.
  destruct (argmax_Done (map Cmod (pass_hilbert (residue st)))) as [i Hi].
  { rewrite <- length_nonnil, length_map, pass_hilbert_length.
    apply length_nonnil, Hres. }
  unfold loop_body.
  rewrite ifft_Done by assumption. cbn [bind].
  rewrite hilbert_Done.
  2:{ rewrite <- length_nonnil, length_map, length_idft, length_nonnil.
      assumption. }
  cbn [bind]. fold (pass_hilbert (residue st)).
  rewrite Hi. cbn [bind]. rewrite nth_map_angle.
  rewrite component_spectrum_of_spec by assumption. cbn [bind].
  match goal with
  | |- context [broadcast2 Csub (residue st) ?rec] =>
      assert (Hrec : rec <> [])
        by (rewrite <- length_nonnil, length_reconstruct;
            [lia | assumption | apply length_spec_half]);
      destruct (broadcast2 Csub (residue st) rec) as [r|e'|] eqn:Hb
  end; cbn [bind].
  - rewrite ifft_Done by exact Hrec. discriminate.
  - intros H. inversion H; subst e'.
    apply broadcast2_Raised_inv in Hb. exact Hb.
  - discriminate.
Qed.

Lemma loop_Raised_inv (ref : reference) (dt t : R) :
  (1 <= length (original_spectrum ref))%nat ->
  length (omega ref) = length (original_spectrum ref) ->
  forall (fuel k : nat) (st : state) (e : exn),
    residue st <> [] ->
    loop ref dt t fuel k st = Raised e -> e = ValueError_broadcast.
Proof.
  intros HL Hw. induction fuel as [|fuel IH]; intros k st e Hres; simpl;
    destruct (Rgt_dec (amplitude st) (t * amp_max st)) as [Hgt|Hle];
    try discriminate.
  destruct (loop_body ref dt st) as [st1|e1|] eqn:Hb; cbn [bind].
  - apply IH.
    apply loop_body_Done_inv in Hb.
    destruct Hb as (i & cs & res' & _ & _ & _ & Hb & Hrec & ->).
    cbn [residue]. eapply broadcast2_nonnil; eassumption.
  - intros H. inversion H; subst e1.
    eapply loop_body_Raised_inv; eassumption.
  - discriminate.
Qed.

(** X2: the call raises numpy's "invalid number of data points" error
    exactly when the original signal or the measured signal is empty,
    whatever the sample interval, the threshold and the number of passes
    allowed: the error comes from the two forward transforms made before
    anything else, and no later step can raise it. *)
Theorem X2_empty_signal_error (fuel : nat) (m o : list R) (dt t : R) :
  extract_CLEAN fuel m o dt t = Raised ValueError_fft_points <->
  o = [] \/ m = [].
Proof.
  split.
  - intros H.
    destruct o as [|y o]; [left; reflexivity|].
    destruct m as [|x m]; [right; reflexivity|]. exfalso.
    unfold extract_CLEAN, extract_CLEAN_run in H.
    destruct (prepare (x :: m) (y :: o) dt) as [[ref st0]|e|] eqn:Hp;
      cbn [bind fst snd] in H.
    + apply prepare_Done_inv in Hp.
      destruct Hp as (_ & _ & HX & Hw & _ & ->).
      assert (HL : (1 <= length (original_spectrum ref))%nat)
        by (rewrite HX, length_dft, length_map; simpl; lia).
      destruct (loop ref dt t fuel 0 (mkState (dft (map RtoC (x :: m))) 1 2 [] [] [] []))
        as [ks|e|] eqn:Hl; cbn [bind] in H; try discriminate.
      inversion H; subst e.
      apply loop_Raised_inv in Hl.
      * discriminate.
      * exact HL.
      * rewrite Hw, HX, length_dft, length_map. reflexivity.
      * cbn [residue]. rewrite <- length_nonnil, length_dft, length_map.
        simpl. lia.
    + inversion H; subst e. clear H. unfold prepare in Hp.
      rewrite (fft_Done (map RtoC (y :: o))), (fft_Done (map RtoC (x :: m)))
        in Hp by discriminate.
      cbn [bind] in Hp. unfold fftfreq in Hp.
      destruct (Req_dec_T (INR (length (y :: o)) * dt) 0);
        cbn [bind] in Hp; [discriminate|].
      rewrite hilbert_Done in Hp by discriminate. cbn [bind] in Hp.
      destruct (argmax_Done (map Cmod (analytic (y :: o)))) as [i Hi].
      { rewrite <- length_nonnil, length_map, length_analytic. simpl. lia. }
      rewrite Hi in Hp. discriminate.
    + discriminate.
  - intros [-> | ->]; unfold extract_CLEAN, extract_CLEAN_run, prepare.
    + reflexivity.
    + destruct o; reflexivity.
Qed.

Lemma X2_empty_signal_error_witness :
  extract_CLEAN 3 [] [1; 2] 1 (2 / 5) = Raised ValueError_fft_points.
Proof.
  apply (proj2 (X2_empty_signal_error 3 [] [1; 2] 1 (2 / 5))).
  right. reflexivity.
Defined.

(** ** Which shapes make the loop raise *)

Lemma broadcast2_same_length {A B D : Type} (f : A -> B -> D) (a : list A)
    (b : list B) :
  length a = length b ->
  broadcast2 f a b = Done (map (fun p => f (fst p) (snd p)) (combine a b)).
Proof.
  intros H. unfold broadcast2.
  destruct (Nat.eq_dec (length a) (length b)); [reflexivity | contradiction].
Qed.

(** Shapes that broadcast: the result, and its length. *)
Lemma broadcast2_Done {A B D : Type} (f : A -> B -> D) (a : list A)
    (b : list B) :
  a <> [] -> b <> [] ->
  length a = length b \/ length a = 1%nat \/ length b = 1%nat ->
  exists r, broadcast2 f a b = Done r /\ r <> [] /\
            (length r = length b \/ (length b = 1%nat /\ length r = length a)).
Proof.
  intros Ha Hb Hshape. unfold broadcast2.
  destruct (Nat.eq_dec (length a) (length b)) as [E|E].
  - eexists. split; [reflexivity|].
    rewrite <- length_nonnil, length_map, length_combine, <- E, Nat.min_id.
    split; [apply length_nonnil, Ha | left; reflexivity].
  - destruct Hshape as [H|[H|H]]; [contradiction | |].
    + destruct a as [|x [|x' a]]; simpl in H; try lia.
      eexists. split; [reflexivity|].
      rewrite <- length_nonnil, length_map.
      split; [apply length_nonnil, Hb | left; reflexivity].
    + destruct b as [|y [|y' b]]; simpl in H; try lia.
      destruct a as [|x [|x' a]]; [congruence | simpl in E; lia |].
      eexists. split; [reflexivity|].
      rewrite <- length_nonnil, length_map.
      split; [simpl; lia | right; split; reflexivity].
Qed.

Lemma loop_body_succeeds (ref : reference) (dt : R) (st : state) :
  (1 <= length (original_spectrum ref))%nat ->
  length (omega ref) = length (original_spectrum ref) ->
  residue_fits ref st ->
  exists st', loop_body ref dt st = Done st' /\ residue_fits ref st'.
Proof.
  intros HL Hw [Hres Hshape].
  destruct (argmax_Done (map Cmod (pass_hilbert (residue st)))) as [i Hi].
  { rewrite <- length_nonnil, length_map, pass_hilbert_length.
    apply length_nonnil, Hres. }
  pose proof (loop_body_eval ref dt st i) as Hbody. cbv zeta in Hbody.
  match type of Hbody with
  | forall res', _ -> _ -> _ -> _ -> broadcast2 _ _ ?rec = _ -> _ =>
      assert (Hlen : length rec = length (original_spectrum ref))
        by (apply length_reconstruct; [exact HL | apply length_spec_half]);
      destruct (broadcast2_Done Csub (residue st) rec) as (r & Hr & Hne & Hlr)
  end.
  - exact Hres.
  - apply length_nonnil. rewrite Hlen. lia.
  - rewrite Hlen. exact Hshape.
  - eexists. split; [apply (Hbody r Hres HL Hw Hi Hr)|].
    split; cbn [residue]; [exact Hne|].
    rewrite Hlen in Hlr. destruct Hlr as [E|[E1 E2]]; [left; exact E|].
    right. right. exact E1.
Qed.

(** X3: on signals that are not empty, with a non-zero sample interval,
    whose lengths are equal or one of which has a single sample, the call
    raises no exception, whatever the threshold and however many passes are
    made. *)
Theorem X3_no_exception (fuel : nat) (m o : list R) (dt t : R) (e : exn) :
  m <> [] -> o <> [] -> dt <> 0 ->
  length m = length o \/ length m = 1%nat \/ length o = 1%nat ->
  extract_CLEAN fuel m o dt t <> Raised e.
Proof.
  intros Hm Ho Hdt Hshape.
  destruct (prepare_Done m o dt Hm Ho Hdt) as [oi [_ Hp]].
  unfold extract_CLEAN, extract_CLEAN_run. rewrite Hp. cbn [bind fst snd].
  match goal with
  | |- context [loop ?ref dt t fuel 0%nat ?st0] =>
      assert (H : loop ref dt t fuel 0 st0 <> Raised e);
      [|destruct (loop ref dt t fuel 0 st0) as [[k st]|e'|]; cbn [bind];
        congruence]
  end.
  apply (loop_never_raises _ dt t
           (residue_fits
              (mkReference (dft (map RtoC o))
                 (map (fun j => IZR j * (1 / (INR (length o) * dt)))
                      (fftfreq_bins (length o)))
                 (analytic o) oi))).
  - intros st Hst. apply loop_body_succeeds; [| |exact Hst];
      cbn [original_spectrum omega];
      rewrite ?length_map, ?length_dft, ?length_map.
    + apply length_nonnil in Ho. lia.
    + apply length_fftfreq_bins. apply length_nonnil in Ho. lia.
  - split; cbn [residue original_spectrum].
    + rewrite <- length_nonnil, length_dft, length_map.
      apply length_nonnil, Hm.
    + rewrite !length_dft, !length_map. exact Hshape.
Qed.

Lemma X3_no_exception_witness :
  extract_CLEAN 7 [1; 2; 3] [2; 0; 1] 1 (1 / 10) <> Raised ValueError_broadcast.
Proof.
  apply (X3_no_exception 7 [1; 2; 3] [2; 0; 1] 1 (1 / 10));
    try discriminate; try lra. left. reflexivity.
Defined.

(** ** Every returned amplitude passed the loop test *)

Lemma loop_body_thresholded (ref : reference) (dt t : R) (st st' : state) :
  thresholded t st -> amplitude st > t * amp_max st ->
  loop_body ref dt st = Done st' -> thresholded t st'.
Proof.
  intros [Hpos Hth] Hgt H. apply loop_body_Done_inv in H.
  destruct H as (i & cs & res' & _ & _ & _ & _ & _ & ->).
  unfold thresholded. cbn [amplitudes amplitude amp_max]. split.
  - apply Forall_app. split; [exact Hpos|].
    constructor; [apply sqrt_pos | constructor].
  - right. destruct Hth as [E | (a0 & rest & la & E & Hmax & Hlast & Hall)].
    + rewrite E. cbn [app length Nat.eqb].
      eexists _, [], []. repeat split. constructor.
    + exists a0, (rest ++ [Cmod (nth i (pass_hilbert (residue st)) C0)]),
        (amplitudes st).
      rewrite E at 1 2. rewrite length_app. cbn [length app].
      replace (S (length rest) + 1 =? 1)%nat with false
        by (symmetry; apply Nat.eqb_neq; lia).
      repeat split; [exact Hmax|].
      rewrite Hlast. apply Forall_app. split; [exact Hall|].
      constructor; [|constructor]. rewrite <- Hmax. exact Hgt.
Qed.

(** X4: the returned amplitudes are not negative, and each of them --
    the first included -- is greater than [threshold] times the first one,
    which is the value the loop keeps as [amp_max]. *)
Theorem X4_amplitudes_above_threshold (fuel : nat) (m o : list R) (dt t : R)
    (r : result) (a0 : R) (rest : list R) :
  extract_CLEAN fuel m o dt t = Done r ->
  out_amplitudes r = a0 :: rest ->
  Forall (fun a => 0 <= a /\ a > t * a0) (a0 :: rest).
Proof.
  intros H Hr. apply result_Done_inv in H. destruct H as (k & st & Hrun & ->).
  apply run_Done_inv in Hrun. destruct Hrun as (ref & _ & Hl & _).
  assert (Hth : thresholded t st).
  { eapply (loop_invariant ref dt t (thresholded t)); [|exact Hl|].
    - intros s s' Hs Hgt Hb. eapply loop_body_thresholded; eassumption.
    - split; [constructor | left; reflexivity]. }
  destruct Hth as [Hpos [E | (b0 & rest' & la & E & _ & Hlast & Hall)]];
    cbn [returned out_amplitudes drop_last] in Hr.
  - rewrite E in Hr. discriminate.
  - rewrite Hlast, removelast_last in Hr. subst la.
    assert (b0 = a0).
    { rewrite Hlast in E. cbn [app] in E. inversion E. reflexivity. }
    subst b0. rewrite Hlast in Hpos. apply Forall_app in Hpos.
    destruct Hpos as [Hpos _].
    rewrite Forall_forall in *. intros a Ha. split; auto.
Qed.

Lemma X4_amplitudes_above_threshold_witness :
  Forall (fun a => 0 <= a /\ a > 2 / 5 * Cmod (mkC 2 (- (1 / 2))))
         [Cmod (mkC 2 (- (1 / 2)))].
Proof.
  apply (X4_amplitudes_above_threshold 2 [2; 1; 0; 0] [1; 0; 0; 0] 1 (2 / 5)
           _ _ _ skewed_run).
  reflexivity.
Defined.

(** ** The range of the reported phases *)

Lemma angle_range (z : C) : - PI < angle z <= PI.
Proof.
  unfold angle, arctan2. pose proof PI_RGT_0 as Hpi.
  set (x := Re z). set (y := Im z).
  pose proof (atan_bound (y / x)) as Hb.
  destruct (Rlt_dec 0 x) as [Hx|Hx]; [lra|].
  destruct (Rlt_dec x 0) as [Hx'|Hx'].
  - assert (Hix : / x < 0) by (apply Rinv_lt_0_compat, Hx').
    destruct (Rle_dec 0 y) as [Hy|Hy].
    + assert (y / x <= 0) by (unfold Rdiv; nra).
      assert (atan (y / x) <= 0).
      { destruct (Req_dec (y / x) 0) as [E|E].
        - rewrite E, atan_0. lra.
        - rewrite <- atan_0. left. apply atan_increasing. lra. }
      lra.
    + assert (0 < y / x) by (unfold Rdiv; nra).
      assert (0 < atan (y / x))
        by (rewrite <- atan_0; apply atan_increasing; assumption).
      lra.
  - destruct (Rlt_dec 0 y); [lra|]. destruct (Rlt_dec y 0); lra.
Qed.

Lemma loop_body_phases (ref : reference) (dt : R) (st st' : state) :
  loop_body ref dt st = Done st' ->
  Forall (fun p => 0 < p < 4 * PI) (phases st) ->
  Forall (fun p => 0 < p < 4 * PI) (phases st').
Proof.
  intros H Hall. apply loop_body_Done_inv in H.
  destruct H as (i & cs & res' & _ & _ & _ & _ & _ & ->).
  cbn [phases]. apply Forall_app. split; [exact Hall|].
  constructor; [|constructor].
  pose proof (angle_range (nth i (pass_hilbert (residue st)) C0)).
  pose proof (angle_range
                (nth (original_argpeak ref) (original_hilbert ref) C0)).
  lra.
Qed.

(** X5: in exact arithmetic, every returned phase lies strictly between
    [0] and [4 pi]: it is a difference of two angles taken in [(-pi, pi]],
    shifted by [2 pi].  (The rounding of [arctan2], which can put a
    [float64] phase on the bound [0.0], and overflow to [nan] are outside
    the model.) *)
Theorem X5_phase_range (fuel : nat) (m o : list R) (dt t : R) (r : result) :
  extract_CLEAN fuel m o dt t = Done r ->
  Forall (fun p => 0 < p < 4 * PI) (out_phases r).
Proof.
  intros H. apply result_Done_inv in H. destruct H as (k & st & Hrun & ->).
  apply run_Done_inv in Hrun. destruct Hrun as (ref & _ & Hl & _).
  assert (Hall : Forall (fun p => 0 < p < 4 * PI) (phases st)).
  { eapply (loop_invariant ref dt t
              (fun s => Forall (fun p => 0 < p < 4 * PI) (phases s)));
      [|exact Hl|constructor].
    intros s s' Hs _ Hb. eapply loop_body_phases; eassumption. }
  cbn [returned out_phases drop_last].
  rewrite Forall_forall in *. intros p Hp. apply Hall, In_removelast, Hp.
Qed.

Lemma X5_phase_range_witness :
  Forall (fun p => 0 < p < 4 * PI) [angle (mkC 2 (- (1 / 2))) + 2 * PI].
Proof.
  apply (X5_phase_range 2 [2; 1; 0; 0] [1; 0; 0; 0] 1 (2 / 5) _ skewed_run).
Defined.

(** ** The length of the returned components *)

Lemma returned_component_lengths (fuel : nat) (m o : list R) (dt t : R)
    (r : result) :
  extract_CLEAN fuel m o dt t = Done r ->
  Forall (fun c => length c = length o) (out_components r).
Proof.
  intros H. apply result_Done_inv in H. destruct H as (k & st & Hrun & ->).
  apply run_Done_inv in Hrun.
  destruct Hrun as (ref & _ & Hl & _ & Ho & HX & Hw & _).
  assert (HL : length (original_spectrum ref) = length o)
    by (rewrite HX, length_dft, length_map; reflexivity).
  assert (Hall : Forall (fun c => length c = length o) (components st)).
  { eapply (loop_invariant ref dt t
              (fun s => Forall (fun c => length c = length o) (components s)));
      [|exact Hl|constructor].
    intros s s' Hs _ Hb. apply loop_body_Done_inv in Hb.
    destruct Hb as (i & cs & res' & _ & _ & Hcs & _ & _ & ->).
    cbn [components]. apply Forall_app. split; [exact Hs|].
    constructor; [|constructor].
    apply length_nonnil in Ho.
    rewrite component_spectrum_of_spec in Hcs by lia.
    inversion Hcs.
    rewrite length_idft, length_reconstruct;
      [exact HL | lia | apply length_spec_half]. }
  cbn [returned out_components drop_last].
  rewrite Forall_forall in *. intros c Hc. apply Hall, In_removelast, Hc.
Qed.

(** X6: every returned component has as many samples as the original
    signal, whatever the length of the measured signal. *)
Theorem X6_component_length (fuel : nat) (m o : list R) (dt t : R)
    (r : result) :
  extract_CLEAN fuel m o dt t = Done r ->
  Forall (fun c => length c = length o) (out_components r).
Proof. apply returned_component_lengths. Qed.

Lemma X6_component_length_witness :
  Forall (fun c => length c = length [1; 0; 0; 0])
         [[mkC 2 (- (1 / 4)); mkC (1 / 4) 0; mkC 0 (- (1 / 4));
           mkC (- (1 / 4)) 0]].
Proof.
  apply (X6_component_length 2 [2; 1; 0; 0] [1; 0; 0; 0] 1 (2 / 5) _
           skewed_run).
Defined.

(** ** Passes on signals of equal length *)

Lemma nth_map_combine {A B D : Type} (f : A -> B -> D) (a : list A)
    (b : list B) (n : nat) (da : A) (db : B) (d : D) :
  length a = length b -> (n < length a)%nat ->
  nth n (map (fun p => f (fst p) (snd p)) (combine a b)) d
  = f (nth n a da) (nth n b db).
Proof.
  intros Hlen Hn. set (g := fun p : A * B => f (fst p) (snd p)).
  rewrite (nth_indep _ d (g (da, db)))
    by (rewrite length_map, length_combine; lia).
  rewrite (map_nth g), combine_nth by exact Hlen. reflexivity.
Qed.

(** With a residue as long as the reference spectrum, a pass subtracts the
    reconstructed spectrum bin by bin and the residue keeps its length. *)
Lemma loop_body_equal_length (ref : reference) (dt : R) (st st' : state) :
  (1 <= length (original_spectrum ref))%nat ->
  length (omega ref) = length (original_spectrum ref) ->
  length (residue st) = length (original_spectrum ref) ->
  loop_body ref dt st = Done st' ->
  exists i,
    let rh := pass_hilbert (residue st) in
    let amp := Cmod (nth i rh C0) in
    let delay := IZR (Z.of_nat i - Z.of_nat (original_argpeak ref)) * dt in
    let phase :=
      angle (nth i rh C0)
      - angle (nth (original_argpeak ref) (original_hilbert ref) C0)
      + 2 * PI in
    let rec := reconstruct ref
                 (spec_half (original_spectrum ref) (omega ref) amp delay
                    phase) in
    (i < length (original_spectrum ref))%nat /\
    argmax (map Cmod rh) = Done i /\
    length rec = length (original_spectrum ref) /\
    length (residue st') = length (original_spectrum ref) /\
    (forall n, (n < length (original_spectrum ref))%nat ->
       nth n (residue st') C0
       = (nth n (residue st) C0 - nth n rec C0)%C) /\
    amplitude st' = amp /\
    amplitudes st' = amplitudes st ++ [amp] /\
    delays st' = delays st ++ [delay] /\
    phases st' = phases st ++ [phase] /\
    components st' = components st ++ [idft rec] /\
    amp_max st'
    = (if (length (amplitudes st ++ [amp]) =? 1)%nat then amp
       else amp_max st).
Proof.
  intros HL Hw Hres H. apply loop_body_Done_inv in H.
  destruct H as (i & cs & res' & _ & Hi & Hcs & Hsub & _ & ->).
  rewrite component_spectrum_of_spec in Hcs by assumption.
  inversion Hcs as [Hcs']. rewrite <- Hcs' in *. clear Hcs Hcs' cs.
  exists i. cbv zeta.
  match type of Hsub with
  | broadcast2 _ _ ?rec = _ =>
      assert (Hlen : length rec = length (original_spectrum ref))
        by (apply length_reconstruct; [exact HL | apply length_spec_half])
  end.
  rewrite broadcast2_same_length in Hsub by (rewrite Hlen; exact Hres).
  inversion Hsub as [Hres']. clear Hsub.
  cbn [residue amplitude amplitudes delays phases components amp_max].
  split.
  { apply argmax_is_max in Hi. destruct Hi as [Hi _].
    rewrite length_map, pass_hilbert_length, Hres in Hi. exact Hi. }
  split; [exact Hi|]. split; [exact Hlen|]. split.
  { rewrite length_map, length_combine, Hlen, Hres. apply Nat.min_id. }
  split; [|repeat split; reflexivity].
  intros n Hn. apply nth_map_combine; [rewrite Hlen; exact Hres | lia].
Qed.

(** ** The reported delays *)

(** X7: on signals of equal length [L] every returned delay is a whole
    number of sample intervals, [j * delta_t] with [-L < j < L]. *)
Theorem X7_delays_whole_samples (fuel : nat) (m o : list R) (dt t : R)
    (r : result) :
  extract_CLEAN fuel m o dt t = Done r ->
  length m = length o ->
  Forall (fun d => exists j : Z,
            (- Z.of_nat (length o) < j < Z.of_nat (length o))%Z /\
            d = IZR j * dt)
         (out_delays r).
Proof.
  intros H Hlen. apply result_Done_inv in H.
  destruct H as (k & st & Hrun & ->).
  apply run_Done_inv in Hrun.
  destruct Hrun as (ref & _ & Hl & _ & Ho & HX & Hw & _ & Hoi).
  assert (HL : length (original_spectrum ref) = length o)
    by (rewrite HX, length_dft, length_map; reflexivity).
  apply length_nonnil in Ho.
  apply argmax_is_max in Hoi. destruct Hoi as [Hoi _].
  rewrite length_map, length_analytic in Hoi.
  set (good := fun d => exists j : Z,
                 (- Z.of_nat (length o) < j < Z.of_nat (length o))%Z /\
                 d = IZR j * dt).
  assert (Hall : length (residue st) = length o /\ Forall good (delays st)).
  { eapply (loop_invariant ref dt t
              (fun s => length (residue s) = length o /\ Forall good (delays s)));
      [|exact Hl|].
    - intros s s' [Hs1 Hs2] _ Hb.
      apply loop_body_equal_length in Hb; try lia.
      destruct Hb as (i & Hi & _ & _ & Hr' & _ & _ & _ & Hd & _ & _ & _).
      split; [lia|]. rewrite Hd. apply Forall_app. split; [exact Hs2|].
      constructor; [|constructor].
      exists (Z.of_nat i - Z.of_nat (original_argpeak ref))%Z.
      split; [lia | reflexivity].
    - split; [|constructor]. cbn [residue].
      rewrite length_dft, length_map. exact Hlen. }
  cbn [returned out_delays drop_last]. destruct Hall as [_ Hall].
  rewrite Forall_forall in *. intros d Hd. apply Hall, In_removelast, Hd.
Qed.

Lemma X7_delays_whole_samples_witness :
  Forall (fun d => exists j : Z,
            (- Z.of_nat (length [1; 0; 0; 0]) < j
             < Z.of_nat (length [1; 0; 0; 0]))%Z /\
            d = IZR j * 1)
         [0].
Proof.
  apply (X7_delays_whole_samples 2 [2; 1; 0; 0] [1; 0; 0; 0] 1 (2 / 5) _
           skewed_run).
  reflexivity.
Defined.

(** ** What is subtracted is what is accumulated *)

Lemma Csum_ext_lt (f g : nat -> C) (n : nat) :
  (forall k, (k < n)%nat -> f k = g k) -> Csum f n = Csum g n.
Proof.
  induction n as [|n IH]; intros H; simpl; [reflexivity|].
  rewrite IH, (H n) by (intros; try apply H; lia). reflexivity.
Qed.

Lemma Csum_sub (f g : nat -> C) (n : nat) :
  Csum (fun k => (f k - g k)%C) n = (Csum f n - Csum g n)%C.
Proof. induction n as [|n IH]; simpl; [Ceq|]. rewrite IH. Ceq. Qed.

(** The inverse transform of a bin-by-bin difference is the difference of
    the inverse transforms. *)
Lemma idft_sub (a b c : list C) (n : nat) :
  length b = length a -> length c = length a ->
  (forall k, (k < length a)%nat ->
     nth k c C0 = (nth k a C0 - nth k b C0)%C) ->
  (n < length a)%nat ->
  nth n (idft c) C0 = (nth n (idft a) C0 - nth n (idft b) C0)%C.
Proof.
  intros Hb Hc Hsub Hn.
  rewrite !nth_idft by lia. rewrite Hb, Hc.
  rewrite (Csum_ext_lt _
             (fun k => (nth k a C0 * cis (2 * PI * INR n * INR k / INR (length a))
                        - nth k b C0
                          * cis (2 * PI * INR n * INR k / INR (length a)))%C)).
  - rewrite Csum_sub. Ceq.
  - intros k Hk. rewrite Hsub by exact Hk. Ceq.
Qed.

Lemma real_sum_at_app (n : nat) (cs : list (list C)) (c : list C) :
  real_sum_at n (cs ++ [c]) = real_sum_at n cs + Re (nth n c C0).
Proof.
  unfold real_sum_at. induction cs as [|c' cs IH]; simpl; [ring|].
  rewrite IH. ring.
Qed.

(** X8: on signals of equal length, when the loop stops each sample of the
    measured signal is the real part of the inverse transform of the final
    residue plus the real parts of all components accumulated (the last,
    discarded one included): the passes move signal from the residue to the
    components and lose nothing. *)
Theorem X8_residue_plus_components (fuel : nat) (m o : list R) (dt t : R)
    (k : nat) (st : state) (n : nat) :
  extract_CLEAN_run fuel m o dt t = Done (k, st) ->
  length m = length o -> (n < length m)%nat ->
  Re (nth n (idft (residue st)) C0) + real_sum_at n (components st)
  = nth n m 0.
Proof.
  intros Hrun Hlen Hn. apply run_Done_inv in Hrun.
  destruct Hrun as (ref & _ & Hl & _ & Ho & HX & Hw & _).
  assert (HL : length (original_spectrum ref) = length o)
    by (rewrite HX, length_dft, length_map; reflexivity).
  apply length_nonnil in Ho.
  set (kept := fun s : state =>
         length (residue s) = length o /\
         forall j, (j < length o)%nat ->
           Re (nth j (idft (residue s)) C0) + real_sum_at j (components s)
           = nth j m 0).
  assert (Hkept : kept st).
  { eapply (loop_invariant ref dt t kept); [|exact Hl|].
    - intros s s' [Hs1 Hs2] _ Hb.
      apply loop_body_equal_length in Hb; try lia.
      destruct Hb as (i & _ & _ & Hrec & Hr' & Hsub & _ & _ & _ & _ & Hc & _).
      split; [lia|]. intros j Hj. rewrite Hc, real_sum_at_app.
      match type of Hrec with
      | length ?rec = _ =>
          rewrite (idft_sub (residue s) rec (residue s')); try lia
      end.
      + cbn [Re Csub]. rewrite <- (Hs2 j Hj). ring.
      + rewrite Hs1, <- HL. exact Hsub.
    - split; cbn [residue components].
      + rewrite length_dft, length_map. exact Hlen.
      + intros j Hj. cbn [real_sum_at fold_right].
        rewrite <- (map_nth Re). rewrite Re_idft_dft. cbn [Re C0]. ring. }
  destruct Hkept as [_ Hkept]. apply Hkept. lia.
Qed.

Lemma X8_residue_plus_components_witness :
  Re (nth 0 (idft [C0]) C0) + real_sum_at 0 [[C1]; [C0]] = nth 0 [1] 0.
Proof.
  apply (X8_residue_plus_components 2 [1] [1] 1 (2 / 5) 2
           (mkState [C0] 0 1 [1; 0] [0; 0] [2 * PI; 2 * PI] [[C1]; [C0]]) 0
           unit_run).
  - reflexivity.
  - simpl. lia.
Defined.

(** ** Decomposing the original signal itself *)

Lemma Cconj_Csum (f : nat -> C) (n : nat) :
  Cconj (Csum f n) = Csum (fun k => Cconj (f k)) n.
Proof. induction n as [|n IH]; simpl; [Ceq|]. rewrite <- IH. Ceq. Qed.

(** The spectrum of a real signal is Hermitian. *)
Lemma dft_real_hermitian (x : list R) (k : nat) :
  (1 <= k)%nat -> (k < length x)%nat ->
  nth (length x - k) (dft (map RtoC x)) C0
  = Cconj (nth k (dft (map RtoC x)) C0).
Proof.
  intros Hk HkL.
  assert (HL : INR (length x) <> 0) by (apply not_0_INR; lia).
  rewrite !nth_dft by (rewrite length_map; lia). rewrite length_map.
  rewrite Cconj_Csum. apply Csum_ext_lt. intros m Hm.
  rewrite nth_map_RtoC, minus_INR by lia.
  replace (- (2 * PI * INR m * (INR (length x) - INR k) / INR (length x)))
    with (- (2 * PI * (INR m - INR 0)
             - 2 * PI * INR m * INR k / INR (length x)))
    by (simpl; field; exact HL).
  apply C_eq; cbn [Re Im Cmul Cconj RtoC cis];
    rewrite ?cos_neg, ?sin_neg, ?cos_whole_turns, ?sin_whole_turns; ring.
Qed.

Lemma nth_map_Cscal (a : R) (X : list C) (k : nat) :
  nth k (map (Cscal a) X) C0 = Cscal a (nth k X C0).
Proof. rewrite <- (map_nth (Cscal a)). f_equal. Ceq. Qed.

(** With delay [0] and phase [2 pi] the reconstructed spectrum is the
    reference spectrum scaled by the amplitude. *)
Lemma reconstruct_in_place (ref : reference) (x : list R) (a : R) :
  x <> [] -> original_spectrum ref = dft (map RtoC x) ->
  reconstruct ref (spec_half (original_spectrum ref) (omega ref) a 0 (2 * PI))
  = map (Cscal a) (original_spectrum ref).
Proof.
  intros Hx HX. apply length_nonnil in Hx.
  assert (HL : length (original_spectrum ref) = length x)
    by (rewrite HX, length_dft, length_map; reflexivity).
  assert (Hhalf : forall k, (k < spec_boundary (length (original_spectrum ref)))%nat ->
            nth k (spec_half (original_spectrum ref) (omega ref) a 0 (2 * PI)) C0
            = Cscal a (nth k (original_spectrum ref) C0)).
  { intros k Hk. rewrite nth_spec_half by exact Hk.
    replace (- (2 * PI * nth k (omega ref) 0 * 0) + 2 * PI) with (2 * PI)
      by ring.
    rewrite cis_2PI. apply Cmul_1_r. }
  apply (nth_ext _ _ C0 C0).
  - rewrite length_map. apply length_reconstruct; [lia | apply length_spec_half].
  - rewrite length_reconstruct by (try apply length_spec_half; lia).
    intros k Hk.
    rewrite nth_reconstruct by (try apply length_spec_half; lia).
    rewrite nth_map_Cscal.
    pose proof (spec_boundary_le (length (original_spectrum ref))) as Hb.
    destruct (Nat.ltb_spec k (spec_boundary (length (original_spectrum ref))))
      as [H|H]; [apply Hhalf, H|].
    assert (Hk' : (length (original_spectrum ref) - k
                   < spec_boundary (length (original_spectrum ref)))%nat).
    { revert H. unfold spec_boundary.
      destruct (Nat.even (length (original_spectrum ref))) eqn:E; intros H.
      - apply Nat.even_spec in E. destruct E as [q E]. lia.
      - apply (f_equal negb) in E. rewrite Nat.negb_even in E.
        apply Nat.odd_spec in E. destruct E as [q E]. lia. }
    rewrite Hhalf by exact Hk'.
    assert (Hk1 : (1 <= k)%nat).
    { pose proof (spec_boundary_pos (length (original_spectrum ref))). lia. }
    rewrite HL, HX. rewrite dft_real_hermitian by lia. Ceq.
Qed.

Lemma Csum_scaled (a : R) (X : list C) (w : nat -> C) (N : nat) :
  Csum (fun k => (nth k (map (Cscal a) X) C0 * w k)%C) N
  = Cscal a (Csum (fun k => (nth k X C0 * w k)%C) N).
Proof.
  induction N as [|N IH]; cbn [Csum]; [Ceq|].
  rewrite IH, nth_map_Cscal. Ceq.
Qed.

Lemma idft_scaled (a : R) (X : list C) (n : nat) :
  (n < length X)%nat ->
  nth n (idft (map (Cscal a) X)) C0 = Cscal a (nth n (idft X) C0).
Proof.
  intros Hn. rewrite !nth_idft by (rewrite ?length_map; exact Hn).
  rewrite length_map.
  rewrite (Csum_scaled a X
             (fun k => cis (2 * PI * INR n * INR k / INR (length X)))).
  Ceq.
Qed.

(** The first entries of the accumulators stay where they are. *)
Lemma loop_keeps_first_entries (ref : reference) (dt t : R) (fuel k : nat)
    (st : state) (k' : nat) (st' : state) (a d p : R) (c : list C) :
  loop ref dt t fuel k st = Done (k', st') ->
  (exists ra rd rp rc,
     amplitudes st = a :: ra /\ delays st = d :: rd /\
     phases st = p :: rp /\ components st = c :: rc) ->
  exists ra rd rp rc,
    amplitudes st' = a :: ra /\ delays st' = d :: rd /\
    phases st' = p :: rp /\ components st' = c :: rc.
Proof.
  intros Hl HP.
  eapply (loop_invariant ref dt t
            (fun s => exists ra rd rp rc,
               amplitudes s = a :: ra /\ delays s = d :: rd /\
               phases s = p :: rp /\ components s = c :: rc));
    [|exact Hl|exact HP].
  intros s s' (ra & rd & rp & rc & Ha & Hd & Hp & Hc) _ Hb.
  apply loop_body_Done_inv in Hb.
  destruct Hb as (i & cs & res' & _ & _ & _ & _ & _ & ->).
  cbn [amplitudes delays phases components].
  rewrite Ha, Hd, Hp, Hc. do 4 eexists. repeat split; reflexivity.
Qed.

Lemma removelast_keeps_head {A : Type} (h : A) (l : list A) (k : nat) :
  length (h :: l) = k -> (2 <= k)%nat ->
  removelast (h :: l) = h :: removelast l.
Proof. intros Hl Hk. destruct l; simpl in *; [lia | reflexivity]. Qed.

(** X9: when the measured signal is the original signal and something is
    returned, the first component found has delay [0] and phase [2 pi], and
    its waveform has as real part the original signal scaled by the
    amplitude found (so it is the original signal only when that amplitude
    is 1). *)
Theorem X9_self_decomposition (fuel : nat) (x : list R) (dt t : R) (r : result)
    (a : R) (rest : list R) :
  extract_CLEAN fuel x x dt t = Done r ->
  out_amplitudes r = a :: rest ->
  exists c rd rp rc,
    out_delays r = 0 :: rd /\ out_phases r = 2 * PI :: rp /\
    out_components r = c :: rc /\
    map Re c = map (fun s => a * s) x.
Proof.
  intros H Hr. apply result_Done_inv in H. destruct H as (k & st & Hrun & ->).
  destruct (run_accumulated _ _ _ _ _ _ _ Hrun)
    as [(Hka & Hkd & Hkp & Hkc & _) _].
  apply run_Done_inv in Hrun.
  destruct Hrun as (ref & _ & Hl & Hx & _ & HX & Hw & Hoh & Hoi).
  assert (HL : length (original_spectrum ref) = length x)
    by (rewrite HX, length_dft, length_map; reflexivity).
  pose proof Hx as Hx'. apply length_nonnil in Hx'.
  cbn [returned out_amplitudes out_delays out_phases out_components drop_last]
    in *.
  destruct fuel as [|fuel]; simpl in Hl;
    destruct (Rgt_dec 1 (t * 2)) as [Hgt|Hle]; try discriminate;
    try (inversion Hl; subst; discriminate).
  apply bind_Done in Hl. destruct Hl as [st1 [Hb Hl]].
  apply loop_body_equal_length in Hb;
    [|lia|lia|cbn [residue]; rewrite length_dft, length_map; lia].
  destruct Hb as (i & _ & Hi & _ & _ & _ & _ & Ha1 & Hd1 & Hp1 & Hc1 & _).
  cbn [residue amplitudes delays phases components app] in *.
  unfold pass_hilbert in *. rewrite Re_idft_dft in *.
  rewrite Hoi in Hi. inversion Hi as [E]. rewrite <- E, Hoh in *. clear Hi E.
  replace (IZR (Z.of_nat (original_argpeak ref)
                - Z.of_nat (original_argpeak ref)) * dt) with 0 in *
    by (rewrite Z.sub_diag; simpl; ring).
  replace (angle (nth (original_argpeak ref) (analytic x) C0)
           - angle (nth (original_argpeak ref) (analytic x) C0) + 2 * PI)
    with (2 * PI) in * by ring.
  rewrite (reconstruct_in_place ref x) in Hc1 by assumption.
  edestruct (loop_keeps_first_entries ref dt t fuel 1 st1 k st)
    as (ra & rd & rp & rc & Ea & Ed & Ep & Ec);
    [exact Hl | exists [], [], [], []; repeat split; eassumption |].
  unfold drop_last in *.
  assert (Hk : (2 <= k)%nat).
  { rewrite Ea in Hka, Hr. destruct ra; simpl in Hr; [discriminate|].
    simpl in Hka. lia. }
  rewrite Ea, Ed, Ep, Ec in *.
  rewrite (removelast_keeps_head _ _ k) in Hr by assumption.
  inversion Hr; subst a.
  do 4 eexists.
  rewrite (removelast_keeps_head _ _ k Hkd), (removelast_keeps_head _ _ k Hkp),
    (removelast_keeps_head _ _ k Hkc) by exact Hk.
  repeat split.
  apply (nth_ext _ _ 0 0).
  - rewrite !length_map, length_idft, length_map. exact HL.
  - rewrite length_map, length_idft, length_map, HL. intros n Hn.
    change 0 with (Re C0) at 1. rewrite map_nth.
    rewrite idft_scaled by lia. cbn [Re Cscal].
    rewrite (nth_indep _ 0 ((fun s => Cmod (nth (original_argpeak ref)
                                           (analytic x) C0) * s) 0))
      by (rewrite length_map; exact Hn).
    rewrite (map_nth (fun s => Cmod (nth (original_argpeak ref)
                                      (analytic x) C0) * s)).
    f_equal. rewrite HX. rewrite <- (map_nth Re), Re_idft_dft. reflexivity.
Qed.

Lemma X9_self_decomposition_witness :
  exists c rd rp rc,
    [0] = 0 :: rd /\ [2 * PI] = 2 * PI :: rp /\
    [[mkC 1 0; mkC 0 0; mkC (- 1) 0; mkC 0 0]] = c :: rc /\
    map Re c = map (fun s => 1 * s) [1; 0; -1; 0].
Proof.
  apply (X9_self_decomposition 2 [1; 0; -1; 0] 1 (2 / 5) _ 1 []
           balanced_run).
  reflexivity.
Defined.

(** ** A silent original signal: a loop test that never fails *)

Lemma Csum_zero (f : nat -> C) (n : nat) :
  (forall k, (k < n)%nat -> f k = C0) -> Csum f n = C0.
Proof.
  induction n as [|n IH]; intros H; simpl; [reflexivity|].
  rewrite IH, (H n) by (intros; try apply H; lia). Ceq.
Qed.

Lemma Cmul_0_l' (w : C) : (RtoC 0 * w)%C = C0.
Proof. Ceq. Qed.

Lemma dft_silent (o : list R) (k : nat) :
  Forall (fun s => s = 0) o -> nth k (dft (map RtoC o)) C0 = C0.
Proof.
  intros Hz. destruct (Nat.lt_ge_cases k (length o)) as [Hk|Hk].
  - rewrite nth_dft by (rewrite length_map; exact Hk).
    apply Csum_zero. intros j Hj. rewrite nth_map_RtoC.
    rewrite Forall_forall in Hz. rewrite (Hz (nth j o 0)).
    + apply Cmul_0_l'.
    + apply nth_In. rewrite length_map in Hj. exact Hj.
  - apply nth_overflow. rewrite length_dft, length_map. exact Hk.
Qed.

Lemma reconstruct_silent (ref : reference) (a d p : R) (n : nat) :
  (1 <= length (original_spectrum ref))%nat ->
  (forall k, nth k (original_spectrum ref) C0 = C0) ->
  (n < length (original_spectrum ref))%nat ->
  nth n (reconstruct ref
           (spec_half (original_spectrum ref) (omega ref) a d p)) C0
  = C0.
Proof.
  intros HL HX Hn.
  assert (Hhalf : forall k,
            nth k (spec_half (original_spectrum ref) (omega ref) a d p) C0
            = C0).
  { intros k.
    destruct (Nat.lt_ge_cases k (spec_boundary (length (original_spectrum ref))))
      as [Hk|Hk].
    - rewrite nth_spec_half by exact Hk. rewrite HX. apply Cscal_C0_mul.
    - apply nth_overflow. rewrite length_spec_half. exact Hk. }
  rewrite nth_reconstruct by (try apply length_spec_half; assumption).
  destruct (n <? spec_boundary (length (original_spectrum ref)))%nat;
    rewrite Hhalf; [reflexivity | Ceq].
Qed.

(** With a reference spectrum that is zero everywhere a pass leaves the
    residue as it is. *)
Lemma silent_pass (ref : reference) (dt : R) (st st' : state) :
  (1 <= length (original_spectrum ref))%nat ->
  length (omega ref) = length (original_spectrum ref) ->
  (forall k, nth k (original_spectrum ref) C0 = C0) ->
  length (residue st) = length (original_spectrum ref) ->
  loop_body ref dt st = Done st' ->
  residue st' = residue st /\
  exists i,
    argmax (map Cmod (pass_hilbert (residue st))) = Done i /\
    amplitude st' = Cmod (nth i (pass_hilbert (residue st)) C0) /\
    amplitudes st' = amplitudes st ++ [amplitude st'] /\
    amp_max st'
    = (if (length (amplitudes st ++ [amplitude st']) =? 1)%nat
       then amplitude st' else amp_max st).
Proof.
  intros HL Hw HX Hres Hb.
  apply loop_body_equal_length in Hb; try assumption.
  destruct Hb as (i & _ & Hi & _ & Hr' & Hsub & Ha & Has & _ & _ & _ & Hmax).
  split.
  - apply (nth_ext _ _ C0 C0); [lia|]. rewrite Hr'. intros n Hn.
    rewrite Hsub by exact Hn.
    rewrite reconstruct_silent by assumption. Ceq.
  - exists i. rewrite Ha. repeat split; assumption.
Qed.

Lemma Cmod_ge_Re (z : C) : Rabs (Re z) <= Cmod z.
Proof.
  apply Cmod_lower; [apply Rabs_pos|].
  unfold Rabs. destruct (Rcase_abs (Re z)); nra.
Qed.

(** X10: in exact arithmetic, when the original signal is zero throughout
    and the measured signal (of the same length) is not, every pass finds
    the same amplitude and subtracts nothing, so for [threshold < 0.5] the
    loop test never fails: no number of passes yields a result.  (A
    [float64] run whose transform overflows leaves the loop on a [nan]
    amplitude; overflow is outside the model.) *)
Theorem X10_silent_original_never_returns (fuel : nat) (m o : list R)
    (dt t : R) :
  Forall (fun s => s = 0) o -> length m = length o ->
  (exists s, In s m /\ s <> 0) -> dt <> 0 -> t < 1 / 2 ->
  extract_CLEAN fuel m o dt t = OutOfFuel.
Proof.
  intros Hz Hlen (s & Hs & Hs0) Hdt Ht.
  assert (Hm : m <> []) by (intros ->; contradiction).
  assert (Ho : o <> []).
  { apply length_nonnil. rewrite <- Hlen. apply length_nonnil, Hm. }
  destruct (prepare_Done m o dt Hm Ho Hdt) as [oi [_ Hp]].
  unfold extract_CLEAN, extract_CLEAN_run. rewrite Hp. cbn [bind fst snd].
  set (ref := mkReference (dft (map RtoC o))
                (map (fun j => IZR j * (1 / (INR (length o) * dt)))
                     (fftfreq_bins (length o)))
                (analytic o) oi).
  set (res0 := dft (map RtoC m)).
  assert (HL : (1 <= length (original_spectrum ref))%nat).
  { cbn [ref original_spectrum]. rewrite length_dft, length_map.
    apply length_nonnil in Ho. lia. }
  assert (Hw : length (omega ref) = length (original_spectrum ref)).
  { cbn [ref original_spectrum omega].
    rewrite length_map, length_dft, length_map. apply length_fftfreq_bins.
    apply length_nonnil in Ho. lia. }
  assert (HX : forall k, nth k (original_spectrum ref) C0 = C0)
    by (intros k; apply dft_silent, Hz).
  assert (Hres0 : length res0 = length (original_spectrum ref)).
  { unfold res0. cbn [ref original_spectrum].
    rewrite !length_dft, !length_map. exact Hlen. }
  destruct (argmax_Done (map Cmod (pass_hilbert res0))) as [i0 Hi0].
  { rewrite <- length_nonnil, length_map, pass_hilbert_length, Hres0. lia. }
  set (A := Cmod (nth i0 (pass_hilbert res0) C0)).
  assert (HA : 0 < A).
  { pose proof Hi0 as Hmax. apply argmax_is_max in Hmax.
    destruct Hmax as [_ [_ Hall]]. rewrite nth_map_Cmod in Hall. fold A in Hall.
    apply (In_nth _ _ 0) in Hs. destruct Hs as (n & Hn & <-).
    rewrite Forall_forall in Hall.
    assert (Hle : Cmod (nth n (pass_hilbert res0) C0) <= A).
    { apply Hall. rewrite <- nth_map_Cmod. apply nth_In.
      rewrite length_map, pass_hilbert_length, Hres0.
      cbn [ref original_spectrum]. rewrite length_dft, length_map. lia. }
    assert (Hph : pass_hilbert res0 = analytic m)
      by (unfold pass_hilbert, res0; rewrite Re_idft_dft; reflexivity).
    rewrite Hph in Hle.
    pose proof (Cmod_ge_Re (nth n (analytic m) C0)) as Hge.
    rewrite <- (map_nth Re), Re_analytic in Hge. cbn [Re C0] in Hge.
    pose proof (Rabs_pos_lt _ Hs0). lra. }
  (* after at least one pass the state repeats *)
  assert (Hloop : forall f k st,
            residue st = res0 -> amplitude st = A -> amp_max st = A ->
            amplitudes st <> [] ->
            loop ref dt t f k st = OutOfFuel).
  { induction f as [|f IH]; intros k st Hr Ha Hmax Hne; simpl;
      destruct (Rgt_dec (amplitude st) (t * amp_max st)) as [Hgt|Hle];
      try reflexivity; try (exfalso; apply Hle; rewrite Ha, Hmax; nra).
    destruct (loop_body_succeeds ref dt st HL Hw) as [st' [Hb _]].
    { split; [|left; rewrite Hr; exact Hres0].
      apply length_nonnil. rewrite Hr, Hres0. lia. }
    rewrite Hb. cbn [bind].
    pose proof (silent_pass ref dt st st' HL Hw HX) as Hsil.
    rewrite Hr in Hsil. specialize (Hsil Hres0 Hb).
    destruct Hsil as (Hr' & i & Hi & Ha' & Has & Hmax').
    rewrite Hi0 in Hi. inversion Hi; subst i.
    apply IH; try assumption.
    - rewrite Hmax'. rewrite length_app. cbn [length].
      destruct (amplitudes st) as [|a0 l]; [congruence|].
      cbn [length]. replace (S (length l) + 1 =? 1)%nat with false
        by (symmetry; apply Nat.eqb_neq; lia).
      exact Hmax.
    - rewrite Has. destruct (amplitudes st); discriminate. }
  assert (Hrun : loop ref dt t fuel 0 (mkState res0 1 2 [] [] [] [])
                 = OutOfFuel).
  { destruct fuel as [|f]; simpl;
      destruct (Rgt_dec 1 (t * 2)) as [Hgt|Hle]; try reflexivity; try lra.
    destruct (loop_body_succeeds ref dt (mkState res0 1 2 [] [] [] []) HL Hw)
      as [st' [Hb _]].
    { split; cbn [residue]; [|left; exact Hres0].
      apply length_nonnil. rewrite Hres0. lia. }
    rewrite Hb. cbn [bind].
    pose proof (silent_pass ref dt (mkState res0 1 2 [] [] [] []) st'
                  HL Hw HX Hres0 Hb) as Hsil.
    cbn [residue amplitudes amp_max app length Nat.eqb] in Hsil.
    destruct Hsil as (Hr' & i & Hi & Ha' & Has & Hmax').
    rewrite Hi0 in Hi. inversion Hi; subst i.
    apply Hloop; try assumption.
    - rewrite Hmax'. exact Ha'.
    - rewrite Has. discriminate. }
  rewrite Hrun. reflexivity.
Qed.

Lemma X10_silent_original_never_returns_witness :
  extract_CLEAN 1000 [0; 3] [0; 0] 1 (2 / 5) = OutOfFuel.
Proof.
  apply (X10_silent_original_never_returns 1000 [0; 3] [0; 0] 1 (2 / 5));
    try lra.
  - repeat constructor.
  - reflexivity.
  - exists 3. split; [right; left; reflexivity | lra].
Defined.

(** * Properties of [plot_components] *)

Lemma length_microseconds (time : list R) :
  length (microseconds time) = length time.
Proof. apply length_map. Qed.

Lemma plot_each_Done (time : list R) (components : list (list C)) :
  forall (i : nat) (log : list plt_call),
    Forall (fun c => length c = length time) components ->
    plot_each time i components log
    = (log ++ map (fun p => component_curve time (fst p) (snd p))
                  (combine (seq i (length components)) components),
       None).
Proof.
  induction components as [|c cs IH]; intros i log Hall.
  - cbn. rewrite app_nil_r. reflexivity.
  - inversion Hall as [|? ? Hc Hcs]; subst.
    cbn [plot_each]. unfold plt_seq, plt_plot.
    rewrite length_microseconds, length_map.
    destruct (Nat.eq_dec (length time) (length c)) as [_|n]; [|congruence].
    rewrite IH by exact Hcs. cbn [length seq combine map fst snd].
    rewrite <- app_assoc. reflexivity.
Qed.

(** Whatever the shapes, the loop over the components only ever adds
    curves to the log, and it raises exactly when some component differs
    in length from the time axis. *)
Lemma plot_each_log (time : list R) (components : list (list C)) :
  forall (i : nat) (log : list plt_call),
    (exists extra,
       fst (plot_each time i components log) = log ++ extra /\
       Forall (fun call => is_plot call = true) extra) /\
    (snd (plot_each time i components log) = None <->
     Forall (fun c => length c = length time) components).
Proof.
  induction components as [|c cs IH]; intros i log.
  - cbn. split; [exists []; rewrite app_nil_r; split; constructor|].
    split; intros; [constructor | reflexivity].
  - cbn [plot_each]. unfold plt_seq, plt_plot.
    rewrite length_microseconds, length_map.
    destruct (Nat.eq_dec (length time) (length c)) as [E|E].
    + destruct (IH (S i) (log ++ [Plot (microseconds time) (map Re c) None
                                     None (component_label i)]))
        as [(extra & Hf & Hp) Hiff].
      split.
      * eexists (_ :: extra). rewrite Hf, <- app_assoc.
        split; [reflexivity|]. constructor; [reflexivity | exact Hp].
      * rewrite Hiff. split; intros H.
        -- constructor; [symmetry; exact E | exact H].
        -- inversion H; assumption.
    + cbn [fst snd]. split.
      * exists []. rewrite app_nil_r. split; constructor.
      * split; intros H; [discriminate|].
        inversion H; subst. exfalso. apply E. symmetry. assumption.
Qed.

(** The routine in one piece: the first [plot] call, the loop, the
    labels. *)
Lemma plot_components_eq (time measured : list R)
    (components : list (list C)) :
  plot_components time measured components
  = if Nat.eq_dec (length time) (length measured) then
      match plot_each time 0 components
              [Figure;
               Plot (microseconds time) measured (Some "lightgray"%string)
                    (Some 4) "measured"%string] with
      | (log, None) =>
          (log ++ [Xlabel "time in us"%string;
                   Ylabel "normalised amplitude"%string; Legend], None)
      | (log, Some e) => (log, Some e)
      end
    else ([Figure], Some ValueError_plot_shape).
Proof.
  unfold plot_components, plt_seq, plt_do, plt_plot.
  rewrite length_microseconds. cbn [app].
  destruct (Nat.eq_dec (length time) (length measured)) as [E|E];
    [|reflexivity].
  cbn [app].
  destruct (plot_each time 0 components _) as [log [ex|]]; [reflexivity|].
  rewrite <- !app_assoc. reflexivity.
Qed.

(** X11: [plot_components] completes exactly when the measured signal and
    every component have the length of the time axis.  It then has made, in
    order: [figure], the curve of the measured signal (light gray, width 4,
    labelled "measured"), one curve per component against the same time
    axis in microseconds, labelled "component i" from [i = 0], and the two
    axis labels and the legend; so it draws one curve more than there are
    components. *)
Theorem X11_plot_components_calls (time measured : list R)
    (components : list (list C)) :
  (snd (plot_components time measured components) = None <->
   length measured = length time /\
   Forall (fun c => length c = length time) components) /\
  (snd (plot_components time measured components) = None ->
   fst (plot_components time measured components)
   = [Figure;
      Plot (microseconds time) measured (Some "lightgray"%string) (Some 4)
           "measured"%string]
     ++ map (fun p => component_curve time (fst p) (snd p))
            (combine (seq 0 (length components)) components)
     ++ [Xlabel "time in us"%string;
         Ylabel "normalised amplitude"%string; Legend] /\
   length (filter is_plot (fst (plot_components time measured components)))
   = S (length components)).
Proof.
  rewrite plot_components_eq.
  destruct (Nat.eq_dec (length time) (length measured)) as [E|E].
  - destruct (plot_each_log time components 0
                [Figure;
                 Plot (microseconds time) measured (Some "lightgray"%string)
                      (Some 4) "measured"%string]) as [_ Hiff].
    destruct (plot_each time 0 components _) as [log [e|]] eqn:Hpe;
      cbn [snd fst] in *.
    + split.
      * split; [discriminate|]. intros [_ H]. apply Hiff in H. discriminate.
      * discriminate.
    + assert (Hall : Forall (fun c => length c = length time) components)
        by (apply Hiff; reflexivity).
      rewrite plot_each_Done in Hpe by exact Hall. inversion Hpe as [Hlog].
      clear Hpe. subst log.
      split; [split; [intros _; split; [symmetry; exact E | exact Hall]
                     | reflexivity]|].
      intros _. split.
      * cbn [app]. rewrite <- ?app_assoc. reflexivity.
      * rewrite !filter_app. cbn [filter is_plot app length].
        rewrite !length_app. cbn [length].
        rewrite forallb_filter_id.
        -- rewrite length_map, length_combine, length_seq, Nat.min_id. lia.
        -- apply forallb_forall. intros call Hin.
           apply in_map_iff in Hin. destruct Hin as (p & <- & _). reflexivity.
  - cbn [fst snd]. split; [|discriminate].
    split; [discriminate|]. intros [H _]. exfalso. apply E. symmetry. exact H.
Qed.

Lemma X11_plot_components_calls_witness :
  length (filter is_plot
            (fst (plot_components [0; 1] [1; 2] [[C1; Ci]; [C0; C1]])))
  = 3%nat.
Proof.
  apply (proj2 (X11_plot_components_calls [0; 1] [1; 2]
                  [[C1; Ci]; [C0; C1]])).
  reflexivity.
Defined.

(** X12: when [plot_components] raises, it is [plt.plot]'s shape error, and
    the figure is left with curves only: no axis label and no legend has
    been set. *)
Theorem X12_plot_failure_leaves_no_labels (time measured : list R)
    (components : list (list C)) (err : plot_exn) :
  snd (plot_components time measured components) = Some err ->
  err = ValueError_plot_shape /\
  exists curves,
    fst (plot_components time measured components) = Figure :: curves /\
    Forall (fun call => is_plot call = true) curves.
Proof.
  rewrite plot_components_eq.
  destruct (Nat.eq_dec (length time) (length measured)) as [E|E].
  - destruct (plot_each_log time components 0
                [Figure;
                 Plot (microseconds time) measured (Some "lightgray"%string)
                      (Some 4) "measured"%string]) as [(extra & Hf & Hp) _].
    destruct (plot_each time 0 components _) as [log [ex|]];
      cbn [fst snd] in *; [|discriminate].
    intros _. split; [destruct err; reflexivity|].
    rewrite Hf. eexists. split; [reflexivity|].
    constructor; [reflexivity | exact Hp].
  - cbn [fst snd]. intros _. split; [destruct err; reflexivity|].
    exists []. split; [reflexivity | constructor].
Qed.

Lemma X12_plot_failure_leaves_no_labels_witness :
  exists curves,
    fst (plot_components [0; 1] [1; 2] [[C1; Ci]; [C0]]) = Figure :: curves /\
    Forall (fun call => is_plot call = true) curves.
Proof.
  apply (X12_plot_failure_leaves_no_labels [0; 1] [1; 2] [[C1; Ci]; [C0]]
           ValueError_plot_shape).
  reflexivity.
Defined.

(** ** Only the real parts are drawn *)

Lemma plot_each_real_part (time : list R) (components : list (list C)) :
  forall (i : nat) (log : list plt_call),
    plot_each time i (map (map (fun z => RtoC (Re z))) components) log
    = plot_each time i components log.
Proof.
  induction components as [|c cs IH]; intros i log; [reflexivity|].
  cbn [map plot_each].
  replace (map Re (map (fun z => RtoC (Re z)) c)) with (map Re c)
    by (rewrite map_map; apply map_ext; reflexivity).
  unfold plt_seq.
  destruct (plt_plot (microseconds time) (map Re c) None None
              (component_label i) log) as [log' [ex|]];
    [reflexivity | apply IH].
Qed.

(** X13: the imaginary parts of the components have no effect on what is
    drawn: replacing every sample by its real part gives the same calls and
    the same outcome. *)
Theorem X13_plot_ignores_imaginary_parts (time measured : list R)
    (components : list (list C)) :
  plot_components time measured (map (map (fun z => RtoC (Re z))) components)
  = plot_components time measured components.
Proof. rewrite !plot_components_eq, plot_each_real_part. reflexivity. Qed.

(** ** Plotting what [extract_CLEAN] returns *)

(** X14: on signals of equal length, the components [extract_CLEAN] returns
    can be handed to [plot_components] with a time axis of that length: no
    shape error is raised, and the figure gets one curve for the measured
    signal and one for each returned amplitude. *)
Theorem X14_plot_of_result (fuel : nat) (m o time : list R) (dt t : R)
    (r : result) :
  extract_CLEAN fuel m o dt t = Done r ->
  length m = length o -> length time = length o ->
  snd (plot_components time m (out_components r)) = None /\
  length (filter is_plot (fst (plot_components time m (out_components r))))
  = S (length (out_amplitudes r)).
Proof.
  intros H Hm Ht.
  pose proof (returned_component_lengths _ _ _ _ _ _ H) as Hall.
  rewrite <- Ht in Hall.
  assert (Hlen : length (out_components r) = length (out_amplitudes r)).
  { apply result_Done_inv in H. destruct H as (k & st & Hrun & ->).
    destruct (run_accumulated _ _ _ _ _ _ _ Hrun)
      as [(Ha & _ & _ & Hc & _) _].
    unfold returned, drop_last; cbn [out_amplitudes out_components].
    rewrite !length_removelast, Ha, Hc. reflexivity. }
  rewrite plot_components_eq.
  destruct (Nat.eq_dec (length time) (length m)) as [_|E]; [|lia].
  rewrite plot_each_Done by exact Hall. cbn [fst snd].
  split; [reflexivity|].
  rewrite !filter_app. cbn [filter is_plot app length].
  rewrite !length_app. cbn [length].
  rewrite forallb_filter_id.
  - rewrite length_map, length_combine, length_seq, Nat.min_id. lia.
  - apply forallb_forall. intros call Hin.
    apply in_map_iff in Hin. destruct Hin as (p & <- & _). reflexivity.
Qed.

Lemma X14_plot_of_result_witness :
  snd (plot_components [0; 1; 2; 3] [2; 1; 0; 0]
         [[mkC 2 (- (1 / 4)); mkC (1 / 4) 0; mkC 0 (- (1 / 4));
           mkC (- (1 / 4)) 0]]) = None /\
  length (filter is_plot
            (fst (plot_components [0; 1; 2; 3] [2; 1; 0; 0]
                    [[mkC 2 (- (1 / 4)); mkC (1 / 4) 0; mkC 0 (- (1 / 4));
                      mkC (- (1 / 4)) 0]])))
  = 2%nat.
Proof.
  apply (X14_plot_of_result 2 [2; 1; 0; 0] [1; 0; 0; 0] [0; 1; 2; 3] 1 (2 / 5)
           _ skewed_run); reflexivity.
Defined.

(** * Degenerate inputs of [extract_CLEAN] *)

(** ** A silent measured signal *)

Lemma idft_silent (a : list C) (n : nat) :
  (forall k, nth k a C0 = C0) -> nth n (idft a) C0 = C0.
Proof.
  intros Hz. destruct (Nat.lt_ge_cases n (length a)) as [Hn|Hn].
  - rewrite nth_idft by exact Hn.
    rewrite Csum_zero; [Ceq|]. intros k _. rewrite Hz. Ceq.
  - apply nth_overflow. rewrite length_idft. exact Hn.
Qed.

Lemma analytic_silent (m : list R) (n : nat) :
  Forall (fun s => s = 0) m -> nth n (analytic m) C0 = C0.
Proof.
  intros Hz. unfold analytic. apply idft_silent. intros k.
  destruct (Nat.lt_ge_cases k (length m)) as [Hk|Hk].
  - rewrite nth_map_seq by exact Hk. rewrite dft_silent by exact Hz. Ceq.
  - apply nth_overflow. rewrite length_map, length_seq. exact Hk.
Qed.

(** X15: a measured signal that is zero throughout (with a sample interval
    that is not zero, shapes that broadcast and [threshold < 0.5]) stops the
    loop after its first pass, whose amplitude is [0], and four empty arrays
    are returned. *)
Theorem X15_silent_measured (fuel : nat) (m o : list R) (dt t : R) :
  Forall (fun s => s = 0) m -> m <> [] -> o <> [] -> dt <> 0 ->
  length m = length o \/ length m = 1%nat \/ length o = 1%nat ->
  t < 1 / 2 ->
  (exists st, extract_CLEAN_run (S fuel) m o dt t = Done (1%nat, st) /\
              amplitudes st = [0]) /\
  extract_CLEAN (S fuel) m o dt t = Done (mkResult [] [] [] []).
Proof.
  intros Hz Hm Ho Hdt Hshape Ht.
  destruct (prepare_Done m o dt Hm Ho Hdt) as [oi [_ Hp]].
  set (ref := mkReference (dft (map RtoC o))
                (map (fun j => IZR j * (1 / (INR (length o) * dt)))
                     (fftfreq_bins (length o)))
                (analytic o) oi) in *.
  set (st0 := mkState (dft (map RtoC m)) 1 2 [] [] [] []) in *.
  assert (HL : (1 <= length (original_spectrum ref))%nat).
  { cbn [ref original_spectrum]. rewrite length_dft, length_map.
    apply length_nonnil in Ho. lia. }
  assert (Hw : length (omega ref) = length (original_spectrum ref)).
  { cbn [ref original_spectrum omega].
    rewrite length_map, length_dft, length_map. apply length_fftfreq_bins.
    apply length_nonnil in Ho. lia. }
  destruct (loop_body_succeeds ref dt st0 HL Hw) as [st1 [Hb _]].
  { split; cbn [st0 residue ref original_spectrum].
    - rewrite <- length_nonnil, length_dft, length_map.
      apply length_nonnil, Hm.
    - rewrite !length_dft, !length_map. exact Hshape. }
  pose proof Hb as Hinv. apply loop_body_Done_inv in Hinv.
  destruct Hinv as (i & cs & res' & _ & _ & _ & _ & _ & Hst1).
  cbn [st0 residue amplitudes delays phases components amp_max app length
       Nat.eqb] in Hst1.
  unfold pass_hilbert in Hst1. rewrite Re_idft_dft in Hst1.
  rewrite analytic_silent, Cmod_C0 in Hst1 by exact Hz.
  assert (Hrun : extract_CLEAN_run (S fuel) m o dt t = Done (1%nat, st1)).
  { unfold extract_CLEAN_run. rewrite Hp. cbn [bind fst snd].
    unfold st0 at 1. rewrite loop_sentinels_enter by exact Ht.
    fold st0. rewrite Hb. cbn [bind].
    apply loop_stop. rewrite Hst1. cbn [amplitude amp_max]. lra. }
  split.
  - exists st1. split; [exact Hrun|]. rewrite Hst1. reflexivity.
  - unfold extract_CLEAN. rewrite Hrun. cbn [bind snd]. rewrite Hst1.
    reflexivity.
Qed.

Lemma X15_silent_measured_witness :
  extract_CLEAN 1 [0; 0; 0] [1; 2; 3] 1 (2 / 5) = Done (mkResult [] [] [] []).
Proof.
  apply (X15_silent_measured 0 [0; 0; 0] [1; 2; 3] 1 (2 / 5));
    try discriminate; try lra.
  - repeat constructor.
  - left. reflexivity.
Defined.

(** ** A negative threshold *)

(** A loop whose test holds in every state it can reach, and whose passes
    all succeed, uses up any fuel. *)
Lemma loop_never_stops (ref : reference) (dt t : R) (P : state -> Prop) :
  (forall st, P st ->
     amplitude st > t * amp_max st /\
     exists st', loop_body ref dt st = Done st' /\ P st') ->
  forall (fuel k : nat) (st : state),
    P st -> loop ref dt t fuel k st = OutOfFuel.
Proof.
  intros Hstep. induction fuel as [|fuel IH]; intros k st HP;
    destruct (Hstep st HP) as [Hgt (st' & Hb & HP')]; simpl;
    (destruct (Rgt_dec (amplitude st) (t * amp_max st)); [|contradiction]);
    [reflexivity|].
  rewrite Hb. cbn [bind]. apply IH, HP'.
Qed.

Lemma envelope_peak_positive (m : list R) (i : nat) :
  (exists s, In s m /\ s <> 0) ->
  argmax (map Cmod (analytic m)) = Done i ->
  0 < Cmod (nth i (analytic m) C0).
Proof.
  intros (s & Hs & Hs0) Hi. apply argmax_is_max in Hi.
  destruct Hi as [_ [_ Hall]]. rewrite nth_map_Cmod in Hall.
  apply (In_nth _ _ 0) in Hs. destruct Hs as (n & Hn & <-).
  rewrite Forall_forall in Hall.
  assert (Hle : Cmod (nth n (analytic m) C0)
                <= Cmod (nth i (analytic m) C0)).
  { apply Hall. rewrite <- nth_map_Cmod. apply nth_In.
    rewrite length_map, length_analytic. exact Hn. }
  pose proof (Cmod_ge_Re (nth n (analytic m) C0)) as Hge.
  rewrite <- (map_nth Re), Re_analytic in Hge. cbn [Re C0] in Hge.
  pose proof (Rabs_pos_lt _ Hs0). lra.
Qed.

(** X16: in exact arithmetic, with a negative threshold and a measured
    signal that is not zero throughout (shapes that broadcast, a sample
    interval that is not zero) the loop test never fails, since no
    amplitude is negative and the first one is positive: no number of
    passes yields a result.  (A [float64] run can still end, once a growing
    residue has overflowed and the amplitude is [nan]; overflow is outside
    the model.) *)
Theorem X16_negative_threshold_never_returns (fuel : nat) (m o : list R)
    (dt t : R) :
  (exists s, In s m /\ s <> 0) -> o <> [] -> dt <> 0 ->
  length m = length o \/ length m = 1%nat \/ length o = 1%nat ->
  t < 0 ->
  extract_CLEAN fuel m o dt t = OutOfFuel.
Proof.
  intros Hnz Ho Hdt Hshape Ht.
  assert (Hm : m <> []) by (destruct Hnz as (s & Hs & _); intros ->; contradiction).
  destruct (prepare_Done m o dt Hm Ho Hdt) as [oi [_ Hp]].
  unfold extract_CLEAN, extract_CLEAN_run. rewrite Hp. cbn [bind fst snd].
  set (ref := mkReference (dft (map RtoC o))
                (map (fun j => IZR j * (1 / (INR (length o) * dt)))
                     (fftfreq_bins (length o)))
                (analytic o) oi).
  set (st0 := mkState (dft (map RtoC m)) 1 2 [] [] [] []).
  assert (HL : (1 <= length (original_spectrum ref))%nat).
  { cbn [ref original_spectrum]. rewrite length_dft, length_map.
    apply length_nonnil in Ho. lia. }
  assert (Hw : length (omega ref) = length (original_spectrum ref)).
  { cbn [ref original_spectrum omega].
    rewrite length_map, length_dft, length_map. apply length_fftfreq_bins.
    apply length_nonnil in Ho. lia. }
  assert (Hrun : loop ref dt t fuel 0 st0 = OutOfFuel).
  { destruct fuel as [|f]; simpl;
      destruct (Rgt_dec 1 (t * 2)) as [Hgt|Hle]; try reflexivity; try lra.
    destruct (loop_body_succeeds ref dt st0 HL Hw) as [st1 [Hb Hfit]].
    { split; cbn [st0 residue ref original_spectrum].
      - rewrite <- length_nonnil, length_dft, length_map.
        apply length_nonnil, Hm.
      - rewrite !length_dft, !length_map. exact Hshape. }
    rewrite Hb. cbn [bind].
    pose proof Hb as Hinv. apply loop_body_Done_inv in Hinv.
    destruct Hinv as (i & cs & res' & _ & Hi & _ & _ & _ & Hst1).
    cbn [st0 residue amplitudes delays phases components amp_max app length
         Nat.eqb] in Hst1, Hi.
    unfold pass_hilbert in Hst1, Hi. rewrite Re_idft_dft in Hst1, Hi.
    pose proof (envelope_peak_positive m i Hnz Hi) as HA.
    set (A := Cmod (nth i (analytic m) C0)) in *.
    apply (loop_never_stops ref dt t
             (fun s => residue_fits ref s /\ amp_max s = A /\
                       0 <= amplitude s /\ amplitudes s <> [])).
    - intros s (Hs1 & Hs2 & Hs3 & Hs4). split; [rewrite Hs2; nra|].
      destruct (loop_body_succeeds ref dt s HL Hw Hs1) as [s' [Hb' Hfit']].
      exists s'. split; [exact Hb'|]. split; [exact Hfit'|].
      apply loop_body_Done_inv in Hb'.
      destruct Hb' as (j & cs' & r' & _ & _ & _ & _ & _ & ->).
      cbn [amp_max amplitude amplitudes]. rewrite length_app. cbn [length].
      destruct (amplitudes s) as [|a0 l]; [congruence|]. cbn [length].
      replace (S (length l) + 1 =? 1)%nat with false
        by (symmetry; apply Nat.eqb_neq; lia).
      repeat split; [exact Hs2 | apply sqrt_pos | discriminate].
    - split; [exact Hfit|]. rewrite Hst1. cbn [amp_max amplitude amplitudes].
      split; [reflexivity|]. split; [fold A; lra | discriminate]. }
  rewrite Hrun. reflexivity.
Qed.

Lemma X16_negative_threshold_never_returns_witness :
  extract_CLEAN 500 [1; 2] [1; 2] 1 (- (1 / 10)) = OutOfFuel.
Proof.
  apply (X16_negative_threshold_never_returns 500 [1; 2] [1; 2] 1
           (- (1 / 10))); try discriminate; try lra.
  - exists 1. split; [left; reflexivity | lra].
  - left. reflexivity.
Defined.
